(** * fastip: probing, selection and hosts-file rewriting

    A shallow embedding of the two programs of the repository:

    - the "Smart GitHub CDN Optimizer" ([findBestCDNNode], [testLatency],
      [testDownloadSpeed], [validateCDNNode] and the part of [main] that
      chains them), in [Module SmartCDN];
    - the hosts updater ([findFastestIP], [updateHosts] and the loop of
      [main] that builds the domain -> address map), in [Module FastIP].

    Go strings are modelled as sequences of Unicode code points, which is
    the view the [strings] functions used by the code take of (valid UTF-8)
    text.  [float64] latencies and speeds are modelled as rationals: every
    value the programs compare is a finite float, on which [<] and [>]
    agree with the order of the rationals; rounding is not modelled. *)

From Stdlib Require Import QArith Lqa Ascii String.
From stdpp Require Import gmap list strings sets.

#[local] Set Warnings "-clear-no-such-hyp".

(** ** Go strings *)

Abbreviation rune := N (only parsing).
Abbreviation gostring := (list N) (only parsing).

(** An ASCII literal as a Go string. *)
Definition str (s : string) : gostring :=
  (λ a, N_of_ascii a) <$> list_ascii_of_string s.

(** [unicode.IsSpace]: the Latin-1 spaces (TAB, LF, VT, FF, CR, SPACE,
    U+0085, U+00A0) and the code points of category Z and property
    Pattern_White_Space (U+1680, U+2000..U+200A, U+2028, U+2029, U+202F,
    U+205F, U+3000). *)
Definition isSpace (r : N) : bool :=
  ((9 <=? r) && (r <=? 13) || (r =? 32) || (r =? 133) || (r =? 160)
   || (r =? 5760) || (8192 <=? r) && (r <=? 8202)
   || (r =? 8232) || (r =? 8233) || (r =? 8239) || (r =? 8287)
   || (r =? 12288))%N.

(** [strings.TrimSpace]: the leading and the trailing white space removed. *)
Fixpoint TrimLeft (s : gostring) : gostring :=
  match s with
  | [] => []
  | r :: s' => if isSpace r then TrimLeft s' else s
  end.

Definition TrimRight (s : gostring) : gostring :=
  reverse (TrimLeft (reverse s)).

Definition TrimSpace (s : gostring) : gostring := TrimRight (TrimLeft s).

(** [strings.Fields]: the maximal runs of code points that are not white
    space; [field] is the run being read. *)
Fixpoint fieldsFrom (field : gostring) (s : gostring) : list gostring :=
  match s with
  | [] => match field with [] => [] | _ :: _ => [field] end
  | r :: s' =>
      if isSpace r then
        match field with
        | [] => fieldsFrom [] s'
        | _ :: _ => field :: fieldsFrom [] s'
        end
      else fieldsFrom (field ++ [r]) s'
  end.

Definition Fields (s : gostring) : list gostring := fieldsFrom [] s.

(** [strings.HasPrefix] *)
Fixpoint HasPrefix (s prefix : gostring) : bool :=
  match prefix, s with
  | [], _ => true
  | _ :: _, [] => false
  | p :: prefix', r :: s' => (p =? r)%N && HasPrefix s' prefix'
  end.

(** [strings.Join] *)
Fixpoint Join (elems : list gostring) (sep : gostring) : gostring :=
  match elems with
  | [] => []
  | [e] => e
  | e :: es => e ++ sep ++ Join es sep
  end.

(** [strings.ContainsAny]: some code point of [chars] occurs in [s]. *)
Definition ContainsAny (s chars : gostring) : bool :=
  existsb (λ r, existsb (N.eqb r) chars) s.

(** [bufio.Scanner] with the default split function [bufio.ScanLines]: the
    lines of the data, each without its end-of-line marker (a newline, after
    an optional carriage return); a last line without newline is returned,
    an empty one is not.  [line] is the line being read.  The scanner's
    limit on the length of a line is not modelled. *)
Definition dropCR (data : gostring) : gostring :=
  match last data with
  | Some r => if (r =? 13)%N then take (length data - 1) data else data
  | None => data
  end.

Fixpoint scanLinesFrom (line : gostring) (data : gostring) : list gostring :=
  match data with
  | [] => match line with [] => [] | _ :: _ => [dropCR line] end
  | r :: data' =>
      if (r =? 10)%N then dropCR line :: scanLinesFrom [] data'
      else scanLinesFrom (line ++ [r]) data'
  end.

Definition ScanLines (data : gostring) : list gostring := scanLinesFrom [] data.

(** [fmt.Fprintln(w, line)] for each line: what is written. *)
Definition Fprintln (line : gostring) : gostring := line ++ [10%N].

Definition writeLines (lines : list gostring) : gostring :=
  concat (Fprintln <$> lines).

(** ** Rational comparisons as booleans *)

Definition Qltb (x y : Q) : bool := negb (Qle_bool y x).

Module SmartCDN.

(** ** Data *)

(** [type CDNNode struct { IP, Region string; Latency, Speed float64 }] *)
Record CDNNode := mkCDNNode {
  IP : gostring;
  Region : gostring;
  Latency : Q;
  Speed : Q
}.

(** What the network and the clock answer to one worker: the outcome of
    [net.DialTimeout] with the time it took, and the outcome of the HTTP
    download with the number of bytes [io.Copy] moved and the time it took.
    Durations are [time.Duration] values, in nanoseconds; a completed
    download takes a positive time. *)
Inductive dial_result :=
  | DialFailed
  | DialOk (elapsed : N).

Inductive fetch_result :=
  | GetFailed
  | CopyFailed
  | Fetched (bytes : N) (elapsed : positive).

Record probe := mkProbe {
  dialed : dial_result;
  fetched : fetch_result
}.

(** [Duration.Seconds] *)
Definition Seconds (d : Z) : Q := d # 1000000000.

(** [testLatency]: -1 on a failed dial, else the elapsed milliseconds. *)
Definition testLatency (r : dial_result) : Q :=
  match r with
  | DialFailed => (-1)%Q
  | DialOk elapsed => (Seconds (Z.of_N elapsed) * 1000)%Q
  end.

(** [testDownloadSpeed]: 0 when the GET or the copy fails, else
    [sizeKB / duration] with [sizeKB := float64(4500) / 1024]; the count
    returned by [io.Copy] is discarded. *)
Definition testDownloadSpeed (r : fetch_result) : Q :=
  match r with
  | GetFailed => 0%Q
  | CopyFailed => 0%Q
  | Fetched _ elapsed =>
      let duration := Seconds (Z.pos elapsed) in
      let sizeKB := (4500 / 1024)%Q in
      (sizeKB / duration)%Q
  end.

(** The body of the worker goroutine, up to its send: the value it puts on
    the channel. *)
Definition worker (p : probe) (n : CDNNode) : CDNNode :=
  let n := mkCDNNode (IP n) (Region n) (testLatency (dialed p)) (Speed n) in
  if Qltb 0 (Latency n)
  then mkCDNNode (IP n) (Region n) (Latency n) (testDownloadSpeed (fetched p))
  else n.

(** The body of the receiving loop:
    [if node.Latency > 0 && node.Latency < bestNode.Latency { bestNode = node }] *)
Definition pick (bestNode node : CDNNode) : CDNNode :=
  if Qltb 0 (Latency node) && Qltb (Latency node) (Latency bestNode)
  then node else bestNode.

(** [CDNNode{Latency: 1000}] and [CDNNode{IP: "140.82.113.3"}] *)
Definition initBest : CDNNode := mkCDNNode [] [] 1000 0.
Definition defaultNode : CDNNode := mkCDNNode (str "140.82.113.3") [] 0 0.

(** The reduction the receiving loop performs on the values it receives. *)
Definition reduce (arrived : list CDNNode) : CDNNode :=
  foldl pick initBest arrived.

(** ** The fan-out / fan-in of [findBestCDNNode] as a transition system

    The main goroutine spawns one worker per node ([wg.Add(1); go ...]),
    then the closer ([wg.Wait(); close(results)]), then ranges over the
    channel.  A worker sends its value on the buffered channel and then
    runs its deferred [wg.Done()]. *)
Record state := mkState {
  spawned : nat;            (* iterations of the spawning loop done *)
  running : gset nat;       (* workers that have not sent yet *)
  sending : gset nat;       (* workers that have sent, [wg.Done] pending *)
  wg : nat;                 (* the WaitGroup counter *)
  results : list CDNNode;   (* the channel's buffer, oldest first *)
  closed : bool;            (* [close(results)] has run *)
  bestNode : CDNNode;
  returned : bool;          (* the range loop has ended *)
  sent : list nat;          (* history: workers in the order of their sends *)
  received : list CDNNode   (* history: the values received, in order *)
}.

Inductive event :=
  | EvSpawn             (* one iteration of the spawning loop *)
  | EvSend (i : nat)    (* worker i: probe, [results <- n] *)
  | EvDone (i : nat)    (* worker i: deferred [wg.Done()] *)
  | EvClose             (* closer: [wg.Wait()] returns, [close(results)] *)
  | EvRecv              (* main: one iteration of [for node := range results] *)
  | EvReturn.           (* main: the channel is closed and drained *)

Definition init : state :=
  mkState 0 ∅ ∅ 0 [] false initBest false [] [].

Section Run.
Variable nodes : list CDNNode.
Variable net : nat → probe.

(** The value worker [i] sends. *)
Definition outcome (i : nat) : option CDNNode :=
  worker (net i) <$> nodes !! i.

(** [step e s] is [None] when [e] cannot happen in [s]: the goroutine is
    not at that point, or it blocks there. *)
Definition step (e : event) (s : state) : option state :=
  match e with
  | EvSpawn =>
      if decide (spawned s < length nodes) then
        Some (mkState (S (spawned s)) ({[spawned s]} ∪ running s) (sending s)
                (S (wg s)) (results s) (closed s) (bestNode s) (returned s)
                (sent s) (received s))
      else None
  | EvSend i =>
      match outcome i with
      | Some n =>
          if decide (i ∈ running s) then
            if closed s then None
            else if decide (length (results s) < length nodes) then
              Some (mkState (spawned s) (running s ∖ {[i]}) ({[i]} ∪ sending s)
                      (wg s) (results s ++ [n]) (closed s) (bestNode s)
                      (returned s) (sent s ++ [i]) (received s))
            else None
          else None
      | None => None
      end
  | EvDone i =>
      if decide (i ∈ sending s) then
        match wg s with
        | S k =>
            Some (mkState (spawned s) (running s) (sending s ∖ {[i]})
                    k (results s) (closed s) (bestNode s) (returned s)
                    (sent s) (received s))
        | O => None
        end
      else None
  | EvClose =>
      if decide (spawned s = length nodes) then
        match wg s, closed s with
        | O, false =>
            Some (mkState (spawned s) (running s) (sending s) (wg s)
                    (results s) true (bestNode s) (returned s)
                    (sent s) (received s))
        | _, _ => None
        end
      else None
  | EvRecv =>
      if decide (spawned s = length nodes) then
        match results s, returned s with
        | node :: rest, false =>
            Some (mkState (spawned s) (running s) (sending s) (wg s)
                    rest (closed s) (pick (bestNode s) node) (returned s)
                    (sent s) (received s ++ [node]))
        | _, _ => None
        end
      else None
  | EvReturn =>
      if decide (spawned s = length nodes) then
        match results s, closed s, returned s with
        | [], true, false =>
            Some (mkState (spawned s) (running s) (sending s) (wg s)
                    (results s) (closed s) (bestNode s) true
                    (sent s) (received s))
        | _, _, _ => None
        end
      else None
  end.

(** A schedule is a list of events; [exec] runs it. *)
Fixpoint exec (tr : list event) (s : state) : option state :=
  match tr with
  | [] => Some s
  | e :: tr' =>
      match step e s with
      | Some s' => exec tr' s'
      | None => None
      end
  end.

(** [findBestCDNNode nodes] under the schedule [tr]: the early return for
    an empty slice, else the value of [bestNode] when the range loop has
    ended.  [None] when [tr] is not a complete schedule. *)
Definition findBestCDNNode (tr : list event) : option CDNNode :=
  match nodes with
  | [] => Some defaultNode
  | _ :: _ =>
      match exec tr init with
      | Some s => if returned s then Some (bestNode s) else None
      | None => None
      end
  end.

(** The values the range loop of [findBestCDNNode] has received under the
    schedule [tr], in the order of their arrival. *)
Definition arrivals (tr : list event) : list CDNNode :=
  match exec tr init with
  | Some s => received s
  | None => []
  end.

End Run.

(** The values the workers compute, in the order of the input slice. *)
Definition probeAll (nodes : list CDNNode) (net : nat → probe) : list CDNNode :=
  imap (λ i n, worker (net i) n) nodes.

(** [validateCDNNode] *)
Definition validateCDNNode (node : CDNNode) : bool :=
  Qltb 0 (Latency node) && Qltb (Latency node) 500 && Qltb 100 (Speed node).

(** The selection [main] performs: [findBestCDNNode] followed by the
    [validateCDNNode] gate; [None] is the branch that saves the fallback
    result. *)
Definition selectBest (bestNode : CDNNode) : option CDNNode :=
  if validateCDNNode bestNode then Some bestNode else None.

End SmartCDN.

(** * The hosts updater ([findfastip.go]) *)

Module FastIP.

(** ** Data *)

(** One entry of [PingResult.Data.NodeList]. *)
Record Node := mkNode {
  NodeName : gostring;
  IP : gostring;
  Timeout : Z;
  Time : list Z;
  AvgTime : Q
}.

(** [PingResult], reduced to its only field, [Data.NodeList]. *)
Abbreviation PingResult := (list Node) (only parsing).

(** [var domains] *)
Definition domains : list gostring :=
  [str "github.com"; str "raw.githubusercontent.com";
   str "github.global.ssl.fastly.net"; str "assets-cdn.github.com"].

(** The second argument of [strings.ContainsAny] in [findFastestIP],
    "北京上海广州深圳成都", as code points. *)
Definition cities : gostring :=
  [21271; 20140; 19978; 28023; 24191; 24030; 28145; 22323; 25104; 37117]%N.

Inductive error :=
  | ErrLookup                      (* the request or the JSON decoding failed *)
  | ErrNoDomesticIP                (* "未找到低延迟的国内IP" *)
  | ErrInvalidIP (ip : gostring)   (* "无效IP地址: %s" *)
  | ErrUnsupportedOS (goos : gostring)
  | ErrOpen
  | ErrCreate.

(** ** [findFastestIP] *)

(** The body of the first loop: skip a node that timed out, keep the
    average time of a node whose name contains any of the [cities]
    characters. *)
Definition collectNode (ips : gmap gostring (list Q)) (node : Node)
  : gmap gostring (list Q) :=
  if (0 <? Timeout node)%Z then ips
  else if ContainsAny (NodeName node) cities
       then <[IP node := default [] (ips !! IP node) ++ [AvgTime node]]> ips
       else ips.

(** [sum / float64(len(delays))] *)
Definition average (delays : list Q) : Q :=
  (foldl Qplus 0 delays / inject_Z (Z.of_nat (length delays)))%Q.

(** The body of the second loop, on the pair [(minAvg, bestIP)]. *)
Definition betterIP (best : Q * gostring) (entry : gostring * list Q)
  : Q * gostring :=
  let avg := average entry.2 in
  if Qltb avg best.1 then (avg, entry.1) else best.

Section FindFastestIP.
(** The order in which [range] visits the entries of a map is not fixed:
    [shuffle] stands for the order of one run. *)
Variable shuffle : ∀ A : Type, list A → list A.
(** [net.ParseIP(s) != nil] *)
Variable ParseIP : gostring → bool.

Definition findFastestIP (result : PingResult) (domain : gostring)
  : gostring + error :=
  let ips := foldl collectNode ∅ result in
  let '(minAvg, bestIP) :=
    foldl betterIP (1000%Q, []) (shuffle _ (map_to_list ips)) in
  match bestIP with
  | [] => inr ErrNoDomesticIP
  | _ :: _ => if ParseIP bestIP then inl bestIP else inr (ErrInvalidIP bestIP)
  end.

(** [getBestIP]: [lookup domain] is what the ping service answers for the
    domain, [None] when the request or the decoding of its answer fails. *)
Definition getBestIP (lookup : gostring → option PingResult) (domain : gostring)
  : gostring + error :=
  match lookup domain with
  | None => inr ErrLookup
  | Some result => findFastestIP result domain
  end.

(** The first loop of [main]: the map from the domains to their best IP. *)
Definition bestIPs (lookup : gostring → option PingResult)
  : gmap gostring gostring :=
  foldl (λ ipMap domain,
           match getBestIP lookup domain with
           | inl ip => <[domain := ip]> ipMap
           | inr _ => ipMap
           end) ∅ domains.

End FindFastestIP.

(** ** [updateHosts] *)

(** What [updateHosts] prints. *)
Inductive message :=
  | Updated (domain newIP : gostring)    (* "更新: %s -> %s" *)
  | Unchanged (domain : gostring)        (* "无需更新: %s 已是最新" *)
  | Added (domain ip : gostring).        (* "新增: %s -> %s" *)

(** The variables of the function: the lines to write, the domains found,
    and the standard output. *)
Record vars := mkVars {
  newLines : list gostring;
  existingDomains : gset gostring;
  stdout : list message
}.

(** The inner loop, [for i := 1; i < len(fields); i++], up to its [break]:
    the first field after the address that is a key of the map, with its
    value. *)
Fixpoint firstMapped (ipMap : gmap gostring gostring) (names : list gostring)
  : option (gostring * gostring) :=
  match names with
  | [] => None
  | domain :: names' =>
      match ipMap !! domain with
      | Some newIP => Some (domain, newIP)
      | None => firstMapped ipMap names'
      end
  end.

Definition keep (line : gostring) (v : vars) : vars :=
  mkVars (newLines v ++ [line]) (existingDomains v) (stdout v).

(** The body of the loop over the lines of the file. *)
Definition processLine (ipMap : gmap gostring gostring) (v : vars)
    (text : gostring) : vars :=
  let line := TrimSpace text in
  if HasPrefix line (str "#") then keep line v
  else
    let fields := Fields line in
    match fields with
    | [] | [_] => keep line v
    | address :: names =>
        match firstMapped ipMap names with
        | Some (domain, newIP) =>
            if decide (address ≠ newIP) then
              let newLine := newIP ++ str " " ++ Join names (str " ") in
              mkVars (newLines v ++ [newLine])
                     ({[domain]} ∪ existingDomains v)
                     (stdout v ++ [Updated domain newIP])
            else
              mkVars (newLines v ++ [line])
                     ({[domain]} ∪ existingDomains v)
                     (stdout v ++ [Unchanged domain])
        | None => keep line v
        end
    end.

(** The body of the loop over the map that adds the missing domains. *)
Definition addMissing (v : vars) (entry : gostring * gostring) : vars :=
  let '(domain, ip) := entry in
  if decide (domain ∈ existingDomains v) then v
  else
    let newLine := ip ++ str " " ++ domain in
    mkVars (newLines v ++ [newLine]) (existingDomains v)
           (stdout v ++ [Added domain ip]).

(** The operating system as [updateHosts] sees it: [runtime.GOOS], the
    files by path, and the paths [os.Create] fails on. *)
Record system := mkSystem {
  GOOS : gostring;
  files : gmap gostring gostring;
  readonly : gset gostring
}.

Definition hostsPathOf (goos : gostring) : option gostring :=
  if decide (goos = str "windows")
  then Some (str "C:\Windows\System32\drivers\etc\hosts")
  else if decide (goos = str "linux" ∨ goos = str "darwin")
  then Some (str "/etc/hosts")
  else None.

Section UpdateHosts.
Variable shuffle : ∀ A : Type, list A → list A.

(** The two loops: from the content of the file to the lines to write and
    the messages printed. *)
Definition rewrite (ipMap : gmap gostring gostring) (content : gostring) : vars :=
  let v := foldl (processLine ipMap) (mkVars [] ∅ []) (ScanLines content) in
  foldl addMissing v (shuffle _ (map_to_list ipMap)).

(** [updateHosts]: the system after the call, what was printed, and the
    error returned, if any. *)
Definition updateHosts (ipMap : gmap gostring gostring) (sys : system)
  : system * list message * option error :=
  match hostsPathOf (GOOS sys) with
  | None => (sys, [], Some (ErrUnsupportedOS (GOOS sys)))
  | Some hostsPath =>
      match files sys !! hostsPath with
      | None => (sys, [], Some ErrOpen)
      | Some content =>
          let v := rewrite ipMap content in
          if decide (hostsPath ∈ readonly sys)
          then (sys, stdout v, Some ErrCreate)
          else
            (mkSystem (GOOS sys)
               (<[hostsPath := writeLines (newLines v)]> (files sys))
               (readonly sys),
             stdout v, None)
      end
  end.

End UpdateHosts.

End FastIP.

(** * Comparisons of rationals *)

Lemma Qltb_lt x y : Qltb x y = true ↔ (x < y)%Q.
Proof.
  unfold Qltb. rewrite negb_true_iff, <- not_true_iff_false, Qle_bool_iff.
  split; [apply Qnot_le_lt | apply Qlt_not_le].
Qed.

Lemma Qltb_ge x y : Qltb x y = false ↔ (y <= x)%Q.
Proof.
  unfold Qltb. rewrite negb_false_iff. apply Qle_bool_iff.
Qed.

(** * The CDN optimizer: properties *)

Module SmartCDNFacts.
Import SmartCDN.

(** ** [pick] and [reduce] *)

Lemma pick_cases best n :
  (pick best n = n ∧ (0 < Latency n)%Q ∧ (Latency n < Latency best)%Q) ∨
  (pick best n = best ∧ ((Latency n <= 0)%Q ∨ (Latency best <= Latency n)%Q)).
Proof.
  unfold pick.
  destruct (Qltb 0 (Latency n)) eqn:H0; simpl.
  - destruct (Qltb (Latency n) (Latency best)) eqn:H1.
    + left. by rewrite Qltb_lt in H0, H1.
    + right. rewrite Qltb_ge in H1. auto.
  - right. rewrite Qltb_ge in H0. auto.
Qed.

Lemma reduce_snoc arrived n : reduce (arrived ++ [n]) = pick (reduce arrived) n.
Proof. unfold reduce. by rewrite foldl_app. Qed.

(** The reduction returns the initial record or one of the values it was
    given, and nothing reachable that it was given is strictly faster. *)
Lemma reduce_origin arrived :
  reduce arrived = initBest ∨
  (reduce arrived ∈ arrived ∧ (0 < Latency (reduce arrived))%Q).
Proof.
  induction arrived as [|n arrived IH] using rev_ind; [by left|].
  rewrite reduce_snoc.
  destruct (pick_cases (reduce arrived) n) as [(Hp & ? & ?)|[Hp _]]; rewrite Hp.
  - right. rewrite elem_of_app, list_elem_of_singleton. auto.
  - destruct IH as [?|[? ?]]; [by left | right].
    rewrite elem_of_app. auto.
Qed.

Lemma reduce_bound arrived : (Latency (reduce arrived) <= 1000)%Q.
Proof.
  induction arrived as [|n arrived IH] using rev_ind; [done|].
  rewrite reduce_snoc.
  destruct (pick_cases (reduce arrived) n) as [(Hp & ? & ?)|[Hp _]]; rewrite Hp;
    [lra | done].
Qed.

Lemma reduce_min arrived n :
  n ∈ arrived → (0 < Latency n)%Q → (Latency (reduce arrived) <= Latency n)%Q.
Proof.
  induction arrived as [|m arrived IH] using rev_ind; [by inversion 1|].
  rewrite reduce_snoc, elem_of_app, list_elem_of_singleton.
  intros Hin Hpos.
  destruct (pick_cases (reduce arrived) m) as [(Hp & ? & ?)|[Hp Hm]]; rewrite Hp.
  - destruct Hin as [Hin| ->]; [|lra]. specialize (IH Hin Hpos). lra.
  - destruct Hin as [Hin| ->]; [by apply IH|]. destruct Hm; [lra | done].
Qed.

(** ** The invariant of the fan-out / fan-in *)

Section Invariant.
Context (nodes : list CDNNode) (net : nat → probe).

Record inv (s : state) : Prop := mkInv {
  inv_spawned : spawned s ≤ length nodes;
  inv_sent : ∀ i, i ∈ sent s ↔ i < spawned s ∧ i ∉ running s;
  inv_running : ∀ i, i ∈ running s → i < spawned s;
  inv_sending : ∀ i, i ∈ sending s → i ∈ sent s;
  inv_nodup : NoDup (sent s);
  inv_wg : wg s = size (running s) + size (sending s);
  inv_chan :
    Forall2 (λ i n, probeAll nodes net !! i = Some n)
      (sent s) (received s ++ results s);
  inv_closed : closed s = true → spawned s = length nodes ∧ wg s = 0;
  inv_best : bestNode s = reduce (received s);
  inv_returned : returned s = true → closed s = true ∧ results s = []
}.

Lemma outcome_probeAll i : outcome nodes net i = probeAll nodes net !! i.
Proof. unfold outcome, probeAll. by rewrite list_lookup_imap. Qed.

Lemma inv_init : inv init.
Proof.
  split; simpl; try done; try lia.
  - intros i. rewrite elem_of_nil. lia.
  - constructor.
Qed.

Lemma inv_step e s s' : inv s → step nodes net e s = Some s' → inv s'.
Proof.
  intros [Hsp Hsent Hrun Hsending Hnd Hwg Hch Hcl Hbest Hret] Hstep.
  destruct e; simpl in Hstep.
  - (* EvSpawn *)
    case_decide; [|done]. injection Hstep as <-.
    split; simpl; try done; try lia.
    + intros i. rewrite Hsent. set_unfold. split.
      * intros [? ?]. split; [lia|]. intros [->|?]; [lia | done].
      * intros [? Hni]. split; [|tauto].
        destruct (decide (i = spawned s)) as [->|]; [tauto | lia].
    + intros i. set_unfold. intros [->|?%Hrun]; lia.
    + rewrite size_union, size_singleton; [lia|].
      set_unfold. intros i -> ?%Hrun. lia.
    + intros ?%Hcl. lia.
  - (* EvSend *)
    destruct (outcome nodes net i) as [n|] eqn:Hout; [|done].
    case_decide as Hi; [|done].
    destruct (closed s) eqn:Hc; [done|].
    case_decide; [|done]. injection Hstep as <-.
    assert (i ∉ sent s) as Hns by (rewrite Hsent; tauto).
    split; simpl; try done.
    + intros j. rewrite elem_of_app, list_elem_of_singleton, Hsent.
      set_unfold. specialize (Hrun i Hi).
      destruct (decide (j = i)) as [->|]; [tauto|]. tauto.
    + intros j. set_unfold. intros [? _]. auto.
    + intros j. rewrite elem_of_app, list_elem_of_singleton.
      set_unfold. intros [->|?]; auto.
    + apply NoDup_app. split_and!; [done| |apply NoDup_singleton].
      intros j ? ->%list_elem_of_singleton. done.
    + rewrite (size_union {[i]} (sending s)), size_singleton.
      2:{ set_unfold. intros j -> ?%Hsending. done. }
      rewrite size_difference, size_singleton by set_solver.
      assert (size (running s) ≠ 0); [|lia].
      intros ?%size_empty_inv. set_solver.
    + rewrite (assoc_L (++)). apply Forall2_app; [done|].
      constructor; [|constructor]. by rewrite <- outcome_probeAll.
    + intros [? _]%Hret. done.
  - (* EvDone *)
    case_decide as Hi; [|done].
    destruct (wg s) as [|k] eqn:Hk; [done|]. injection Hstep as <-.
    split; simpl; try done.
    + intros j. set_unfold. intros [? _]. auto.
    + rewrite size_difference, size_singleton by set_solver.
      assert (size (sending s) ≠ 0); [|lia].
      intros ?%size_empty_inv. set_solver.
    + intros Hc. destruct (Hcl Hc). lia.
  - (* EvClose *)
    case_decide; [|done].
    destruct (wg s) eqn:Hk; [|done].
    destruct (closed s) eqn:Hc; [done|]. injection Hstep as <-.
    split; simpl; try done. intros [? _]%Hret. done.
  - (* EvRecv *)
    case_decide; [|done].
    destruct (results s) as [|node rest] eqn:Hres; [done|].
    destruct (returned s) eqn:Hr; [done|]. injection Hstep as <-.
    split; simpl; try done.
    + by rewrite <- (assoc_L (++)).
    + by rewrite reduce_snoc, Hbest.
  - (* EvReturn *)
    case_decide; [|done].
    destruct (results s) eqn:Hres; [|done].
    destruct (closed s) eqn:Hc; [|done].
    destruct (returned s) eqn:Hr; [done|]. injection Hstep as <-.
    split; simpl; try done.
Qed.

Lemma inv_exec tr : ∀ s s', inv s → exec nodes net tr s = Some s' → inv s'.
Proof.
  induction tr as [|e tr IH]; simpl; intros s s' Hinv Hex.
  - by injection Hex as <-.
  - destruct (step nodes net e s) as [s1|] eqn:Hstep; [|done].
    eauto using inv_step.
Qed.

(** *** What a completed run has received *)

Lemma omap_lookup_seq {A} (P : list A) :
  omap (λ i, P !! i) (seq 0 (length P)) = P.
Proof.
  induction P as [|x P IH] using rev_ind; [done|].
  rewrite length_app, Nat.add_1_r, seq_S, omap_app. simpl.
  rewrite list_lookup_middle by done. f_equal.
  etrans; [|exact IH]. apply list_omap_ext, Forall_Forall2_diag, Forall_forall.
  intros i [_ ?]%elem_of_seq. by apply lookup_app_l.
Qed.

Lemma Forall2_lookup_omap {A} (P : list A) l k :
  Forall2 (λ i n, P !! i = Some n) l k → omap (λ i, P !! i) l = k.
Proof.
  induction 1 as [|i n l k Hi _ IH]; [done|].
  simpl. rewrite Hi. simpl. f_equal. exact IH.
Qed.

Lemma lookup_all_Permutation {A} (P : list A) l k :
  NoDup l → (∀ i, i ∈ l ↔ i < length P) →
  Forall2 (λ i n, P !! i = Some n) l k → k ≡ₚ P.
Proof.
  intros Hnd Hall <-%Forall2_lookup_omap.
  transitivity (omap (λ i, P !! i) (seq 0 (length P)));
    [|by rewrite omap_lookup_seq].
  apply omap_Permutation.
  apply NoDup_Permutation; [done | apply NoDup_seq |].
  intros i. rewrite Hall, elem_of_seq. lia.
Qed.

Lemma length_probeAll : length (probeAll nodes net) = length nodes.
Proof. apply length_imap. Qed.

(** When the counter is zero after the spawning loop, every worker has
    sent: the values sent are those of all the workers. *)
Lemma inv_drained s :
  inv s → spawned s = length nodes → wg s = 0 →
  received s ++ results s ≡ₚ probeAll nodes net.
Proof.
  intros [Hsp Hsent Hrun Hsending Hnd Hwg Hch Hcl Hbest Hret] Hall H0.
  apply (lookup_all_Permutation _ (sent s)); [done| |done].
  intros i. rewrite Hsent, length_probeAll, Hall.
  assert (running s = ∅) as ->.
  { apply leibniz_equiv, size_empty_inv. lia. }
  set_solver.
Qed.

Lemma inv_returned_received s :
  inv s → returned s = true →
  received s ≡ₚ probeAll nodes net ∧ bestNode s = reduce (received s).
Proof.
  intros Hinv Hr. destruct (inv_returned _ Hinv Hr) as [Hc Hres].
  destruct (inv_closed _ Hinv Hc) as [Hall H0].
  split; [|by apply inv_best].
  rewrite <- (inv_drained s Hinv Hall H0), Hres. by rewrite (right_id_L [] (++)).
Qed.

(** A worker that has not sent yet never finds the channel closed (its
    send cannot panic) nor full (its send cannot block). *)
Lemma inv_send_enabled s i :
  inv s → i ∈ running s →
  closed s = false ∧ length (results s) < length nodes ∧
  is_Some (outcome nodes net i).
Proof.
  intros [Hsp Hsent Hrun Hsending Hnd Hwg Hch Hcl Hbest Hret] Hi.
  split_and!.
  - destruct (closed s); [|done]. destruct Hcl as [_ H0]; [done|].
    assert (running s = ∅) as Hemp; [|set_solver].
    apply leibniz_equiv, size_empty_inv. lia.
  - assert (i ∉ sent s) as Hns by (rewrite Hsent; tauto).
    assert (length (i :: sent s) ≤ length (seq 0 (length nodes))) as Hle.
    { apply submseteq_length, NoDup_submseteq; [by constructor|].
      intros j. rewrite elem_of_cons, elem_of_seq, Hsent.
      specialize (Hrun i Hi). intros [->|[? _]]; lia. }
    rewrite length_seq in Hle. simpl in Hle.
    apply Forall2_length in Hch. rewrite length_app in Hch. lia.
  - rewrite outcome_probeAll. apply lookup_lt_is_Some.
    rewrite length_probeAll. specialize (Hrun i Hi). lia.
Qed.

(** *** Every schedule is finite, and none gets stuck before the return *)

Definition measure (s : state) : nat :=
  4 * (length nodes - spawned s) + 3 * size (running s) + size (sending s)
  + length (results s)
  + (if closed s then 0 else 1) + (if returned s then 0 else 1).

Lemma step_measure e s s' :
  inv s → step nodes net e s = Some s' → measure s' < measure s.
Proof.
  intros [Hsp Hsent Hrun Hsending Hnd Hwg Hch Hcl Hbest Hret] Hstep.
  unfold measure. destruct e; simpl in Hstep.
  - case_decide; [|done]. injection Hstep as <-. simpl.
    rewrite (size_union {[spawned s]} (running s)), size_singleton; [lia|].
    set_unfold. intros i -> ?%Hrun. lia.
  - destruct (outcome nodes net i) as [n|]; [|done].
    case_decide as Hi; [|done]. destruct (closed s); [done|].
    case_decide; [|done]. injection Hstep as <-. simpl.
    rewrite (size_union {[i]} (sending s)), size_singleton.
    2:{ set_unfold. intros j -> ?%Hsending. apply Hsent in H0. tauto. }
    rewrite size_difference, size_singleton, length_app by set_solver.
    assert (size (running s) ≠ 0); [|simpl; lia].
    intros ?%size_empty_inv. set_solver.
  - case_decide as Hi; [|done].
    destruct (wg s); [done|]. injection Hstep as <-. simpl.
    rewrite size_difference, size_singleton by set_solver.
    assert (size (sending s) ≠ 0); [|lia].
    intros ?%size_empty_inv. set_solver.
  - case_decide; [|done]. destruct (wg s); [|done].
    destruct (closed s); [done|]. injection Hstep as <-. simpl. lia.
  - case_decide; [|done]. destruct (results s); [done|].
    destruct (returned s); [done|]. injection Hstep as <-. simpl. lia.
  - case_decide; [|done]. destruct (results s); [|done].
    destruct (closed s); [|done].
    destruct (returned s); [done|]. injection Hstep as <-. simpl. lia.
Qed.

Lemma exec_measure tr : ∀ s s',
  inv s → exec nodes net tr s = Some s' → length tr + measure s' ≤ measure s.
Proof.
  induction tr as [|e tr IH]; simpl; intros s s' Hinv Hex.
  - injection Hex as <-. lia.
  - destruct (step nodes net e s) as [s1|] eqn:Hstep; [|done].
    pose proof (step_measure _ _ _ Hinv Hstep).
    pose proof (IH _ _ (inv_step _ _ _ Hinv Hstep) Hex). lia.
Qed.

Lemma progress s :
  inv s → returned s = false → ∃ e s', step nodes net e s = Some s'.
Proof.
  intros Hinv Hr.
  destruct (decide (spawned s < length nodes)) as [Hlt|Hge].
  { exists EvSpawn. simpl. rewrite decide_True by done. eauto. }
  assert (spawned s = length nodes) as Hall.
  { pose proof (inv_spawned _ Hinv). lia. }
  destruct (decide (running s = ∅)) as [Hrun|[i Hi]%set_choose_L].
  2:{ destruct (inv_send_enabled _ _ Hinv Hi) as (Hc & Hlen & [n Hn]).
      exists (EvSend i). simpl.
      rewrite Hn, decide_True, Hc, decide_True by done. eauto. }
  pose proof (inv_wg _ Hinv) as Hwg. rewrite Hrun, size_empty in Hwg.
  destruct (decide (sending s = ∅)) as [Hsen|[i Hi]%set_choose_L].
  2:{ exists (EvDone i). simpl. rewrite decide_True by done.
      destruct (wg s); [|eauto].
      apply eq_sym, size_empty_inv in Hwg. set_solver. }
  rewrite Hsen, size_empty in Hwg. simpl in Hwg.
  destruct (closed s) eqn:Hc.
  - destruct (results s) as [|node rest] eqn:Hres.
    + exists EvReturn. simpl. rewrite decide_True, Hres, Hc, Hr by done. eauto.
    + exists EvRecv. simpl. rewrite decide_True, Hres, Hr by done. eauto.
  - exists EvClose. simpl. rewrite decide_True, Hwg, Hc by done. eauto.
Qed.

Lemma completes_from s :
  inv s → ∃ tr s', exec nodes net tr s = Some s' ∧ returned s' = true.
Proof.
  remember (measure s) as m eqn:Hm. revert s Hm.
  induction m as [m IH] using lt_wf_ind. intros s -> Hinv.
  destruct (returned s) eqn:Hr.
  { exists [], s. done. }
  destruct (progress s Hinv Hr) as (e & s1 & Hstep).
  destruct (IH (measure s1) (step_measure _ _ _ Hinv Hstep) s1 eq_refl
              (inv_step _ _ _ Hinv Hstep)) as (tr & s' & Hex & Hret).
  exists (e :: tr), s'. simpl. by rewrite Hstep.
Qed.

(** Some schedule runs [findBestCDNNode] to its return. *)
Lemma findBestCDNNode_returns : ∃ tr b, findBestCDNNode nodes net tr = Some b.
Proof.
  unfold findBestCDNNode. destruct nodes as [|n ns] eqn:Hn; [by exists [], defaultNode|].
  rewrite <- Hn. destruct (completes_from init inv_init) as (tr & s & Hex & Hr).
  exists tr, (bestNode s). by rewrite Hex, Hr.
Qed.

(** Whatever the schedule, the value returned is the reduction of the values
    of all the workers, taken in the order of their arrival. *)
Lemma findBestCDNNode_reduce tr b :
  findBestCDNNode nodes net tr = Some b →
  (nodes = [] ∧ b = defaultNode) ∨
  (nodes ≠ [] ∧ arrivals nodes net tr ≡ₚ probeAll nodes net ∧
   b = reduce (arrivals nodes net tr)).
Proof.
  unfold findBestCDNNode, arrivals. destruct nodes as [|n ns] eqn:Hn.
  { intros [= <-]. by left. }
  rewrite <- Hn. destruct (exec nodes net tr init) as [s|] eqn:Hex; [|done].
  destruct (returned s) eqn:Hr; [|done]. intros [= <-]. right.
  destruct (inv_returned_received s (inv_exec _ _ _ inv_init Hex) Hr) as [? ?].
  split_and!; [by rewrite Hn|done|done].
Qed.

End Invariant.

(** ** Sample inputs

    Two candidates, and three networks: in [net_slow_download] the first
    answers in 50ms and downloads at about 500KB/s, the second answers in
    30ms and downloads at 50KB/s; in [net_tie] both answer in 30ms and
    download at about 500KB/s; in [net_down] no dial succeeds. *)
Definition node_a : CDNNode := mkCDNNode (str "1.2.3.4") [] 0 0.
Definition node_b : CDNNode := mkCDNNode (str "5.6.7.8") [] 0 0.

Definition net_slow_download (i : nat) : probe :=
  match i with
  | 0 => mkProbe (DialOk 50000000) (Fetched 4500 8789062)
  | _ => mkProbe (DialOk 30000000) (Fetched 4500 87890625)
  end.

Definition net_tie (i : nat) : probe :=
  mkProbe (DialOk 30000000) (Fetched 4500 8789062).

Definition net_down (i : nat) : probe := mkProbe DialFailed GetFailed.

(** Worker 0 sends first, and worker 1 sends first. *)
Definition schedule_01 : list event :=
  [EvSpawn; EvSpawn; EvSend 0; EvDone 0; EvSend 1; EvDone 1;
   EvClose; EvRecv; EvRecv; EvReturn].
Definition schedule_10 : list event :=
  [EvSpawn; EvSpawn; EvSend 1; EvSend 0; EvDone 0; EvDone 1;
   EvRecv; EvClose; EvRecv; EvReturn].
(** Worker 0 is done, and the counter back to zero, before worker 1 exists. *)
Definition schedule_early : list event :=
  [EvSpawn; EvSend 0; EvDone 0; EvSpawn; EvRecv; EvSend 1; EvDone 1;
   EvRecv; EvClose; EvReturn].

(** ** The probe engine and the selector *)

Lemma elem_of_probeAll nodes net v :
  v ∈ probeAll nodes net ↔ ∃ i n, nodes !! i = Some n ∧ v = worker (net i) n.
Proof. unfold probeAll. rewrite elem_of_lookup_imap. naive_solver. Qed.

Lemma worker_dial_failed p n :
  dialed p = DialFailed → Latency (worker p n) = (-1)%Q.
Proof. unfold worker. intros ->. reflexivity. Qed.

(** C5. Every complete run of the fan-out / fan-in over N candidates has
    received exactly N values when the range loop ends, one per candidate:
    they are the workers' values up to the order of arrival, the value of a
    candidate whose dial failed is among them with latency -1, and the best
    node returned is the reduction of all of them. *)
Theorem fan_in_receives_every_result nodes net tr s :
  exec nodes net tr init = Some s → returned s = true →
  length (received s) = length nodes ∧
  received s ≡ₚ probeAll nodes net ∧
  bestNode s = reduce (received s) ∧
  (∀ i n, nodes !! i = Some n →
     worker (net i) n ∈ received s ∧
     (dialed (net i) = DialFailed → Latency (worker (net i) n) = (-1)%Q)).
Proof.
  intros Hex Hr.
  destruct (inv_returned_received nodes net s
              (inv_exec _ _ _ _ _ (inv_init _ _) Hex) Hr) as [Hperm Hbest].
  split_and!; [|done|done|].
  - by rewrite Hperm, length_probeAll.
  - intros i n Hi. split; [|apply worker_dial_failed].
    rewrite Hperm. apply elem_of_probeAll. eauto.
Qed.

Lemma fan_in_receives_every_result_witness :
  ∃ s, exec [node_a; node_b] net_down schedule_early init = Some s ∧
       returned s = true ∧ length (received s) = 2.
Proof.
  exists (default init (exec [node_a; node_b] net_down schedule_early init)).
  assert (exec [node_a; node_b] net_down schedule_early init
          = Some (default init (exec [node_a; node_b] net_down schedule_early init)))
    as Hex by (vm_compute; reflexivity).
  assert (returned (default init (exec [node_a; node_b] net_down schedule_early init))
          = true) as Hr by (vm_compute; reflexivity).
  split_and!; [exact Hex | exact Hr |].
  exact (proj1 (fan_in_receives_every_result _ _ _ _ Hex Hr)).
Defined.

(** C2. For an empty slice of candidates, and for one where every dial
    fails, the selection returns (some schedule completes) and whatever the
    schedule the validity gate rejects the node returned: nothing is chosen. *)
Theorem selectBest_absent_when_unreachable nodes net :
  (∀ i, i < length nodes → dialed (net i) = DialFailed) →
  (∃ tr b, findBestCDNNode nodes net tr = Some b) ∧
  (∀ tr b, findBestCDNNode nodes net tr = Some b → selectBest b = None).
Proof.
  intros Hdown. split; [apply findBestCDNNode_returns|].
  intros tr b [[_ ->]|(_ & Hperm & ->)]%findBestCDNNode_reduce; [done|].
  destruct (reduce_origin (arrivals nodes net tr)) as [->|[Hin Hpos]]; [done|].
  assert (reduce (arrivals nodes net tr) ∈ probeAll nodes net) as Hin'
    by (by rewrite <- Hperm).
  apply elem_of_probeAll in Hin' as (i & n & Hi & Hb).
  rewrite Hb, worker_dial_failed in Hpos; [done|].
  apply Hdown. by eapply lookup_lt_Some.
Qed.

Lemma selectBest_absent_when_unreachable_witness :
  (∃ tr b, findBestCDNNode [node_a; node_b] net_down tr = Some b) ∧
  (∀ tr b, findBestCDNNode [node_a; node_b] net_down tr = Some b →
           selectBest b = None).
Proof.
  apply (selectBest_absent_when_unreachable [node_a; node_b] net_down).
  intros i _. reflexivity.
Defined.

Lemma validateCDNNode_spec v :
  validateCDNNode v = true ↔
  (0 < Latency v)%Q ∧ (Latency v < 500)%Q ∧ (100 < Speed v)%Q.
Proof.
  unfold validateCDNNode. rewrite !andb_true_iff, !Qltb_lt. tauto.
Qed.

(** The reduction keeps the first of the values of minimum latency: a value
    [r] that is reachable and below the initial 1000, strictly faster than
    every reachable value received before it and at least as fast as every
    reachable value received after it, is the one returned. *)
Lemma reduce_first_minimum pre r post :
  (0 < Latency r)%Q → (Latency r < 1000)%Q →
  (∀ m, m ∈ pre → (0 < Latency m)%Q → (Latency r < Latency m)%Q) →
  (∀ m, m ∈ post → (0 < Latency m)%Q → (Latency r <= Latency m)%Q) →
  reduce (pre ++ r :: post) = r.
Proof.
  intros Hpos Hlt Hpre Hpost.
  assert (reduce (pre ++ [r]) = r) as Hr.
  { rewrite reduce_snoc.
    destruct (pick_cases (reduce pre) r) as [(Hp & _)|[_ [?|Hge]]];
      [done | lra |].
    destruct (reduce_origin pre) as [Hinit|[Hin Hp]].
    - rewrite Hinit in Hge. simpl in Hge. lra.
    - specialize (Hpre _ Hin Hp). lra. }
  rewrite (cons_middle r pre post), (assoc_L (++)).
  unfold reduce in *. rewrite foldl_app, Hr. clear Hr Hpre.
  induction post as [|m post IH]; [done|]. simpl.
  assert (pick r m = r) as ->.
  { destruct (pick_cases r m) as [(_ & Hm & Hlt')|[Hp _]]; [|done].
    assert (Latency r <= Latency m)%Q by (apply Hpost; [left | done]). lra. }
  apply IH. intros m' Hm'. apply Hpost. by right.
Qed.

(** The latency of the reduction does not depend on the order of arrival. *)
Lemma reduce_latency_Permutation l l' :
  l ≡ₚ l' → (Latency (reduce l) == Latency (reduce l'))%Q.
Proof.
  intros Hperm. apply Qle_antisym.
  - destruct (reduce_origin l') as [->|[Hin Hpos]]; [apply reduce_bound|].
    apply reduce_min; [by rewrite Hperm | done].
  - destruct (reduce_origin l) as [->|[Hin Hpos]]; [apply reduce_bound|].
    apply reduce_min; [by rewrite <- Hperm | done].
Qed.

Lemma probeAll_nil_inv nodes net v : v ∈ probeAll nodes net → nodes ≠ [].
Proof. intros Hv ->. by apply elem_of_nil in Hv. Qed.

(** C1, as the code has it.  Over candidates of which at least one passes
    the validity gate: a candidate the selection chooses is one of the
    probed candidates, passes the gate, and no reachable candidate (so no
    valid one) has a strictly lower latency; and a candidate is chosen
    whenever every reachable candidate of minimum latency passes the
    gate. *)
Theorem selectBest_minimum_latency nodes net tr b :
  findBestCDNNode nodes net tr = Some b →
  (∃ v, v ∈ probeAll nodes net ∧ validateCDNNode v = true) →
  (∀ c, selectBest b = Some c →
     c ∈ probeAll nodes net ∧ validateCDNNode c = true ∧
     ∀ v, v ∈ probeAll nodes net → (0 < Latency v)%Q →
          (Latency c <= Latency v)%Q) ∧
  ((∀ r, r ∈ probeAll nodes net → (0 < Latency r)%Q →
      (∀ r', r' ∈ probeAll nodes net → (0 < Latency r')%Q →
             (Latency r <= Latency r')%Q) →
      validateCDNNode r = true) →
   selectBest b = Some b).
Proof.
  intros Hb (v & Hv & Hvalid).
  apply findBestCDNNode_reduce in Hb as [[Hnil _]|(_ & Hperm & ->)].
  { by apply probeAll_nil_inv in Hv. }
  apply validateCDNNode_spec in Hvalid as (Hv0 & Hv500 & _).
  assert (v ∈ arrivals nodes net tr) as Hv' by (by rewrite Hperm).
  pose proof (reduce_min _ _ Hv' Hv0) as Hmin.
  destruct (reduce_origin (arrivals nodes net tr)) as [Hinit|[Hin Hpos]].
  { rewrite Hinit in Hmin. simpl in Hmin. lra. }
  assert (reduce (arrivals nodes net tr) ∈ probeAll nodes net) as Hin'
    by (by rewrite <- Hperm).
  split.
  - unfold selectBest. intros c Hc.
    destruct (validateCDNNode (reduce (arrivals nodes net tr))) eqn:Hval; [|done].
    injection Hc as <-. split_and!; [done|done|].
    intros w Hw Hw0. apply reduce_min; [by rewrite Hperm | done].
  - intros Hall. unfold selectBest. rewrite Hall; [done|done|done|].
    intros w Hw Hw0. apply reduce_min; [by rewrite Hperm | done].
Qed.

Lemma selectBest_minimum_latency_witness :
  let nodes := [node_a; node_b] in
  let b := worker (net_tie 0) node_a in
  (∀ c, selectBest b = Some c →
     c ∈ probeAll nodes net_tie ∧ validateCDNNode c = true ∧
     ∀ v, v ∈ probeAll nodes net_tie → (0 < Latency v)%Q →
          (Latency c <= Latency v)%Q) ∧
  ((∀ r, r ∈ probeAll nodes net_tie → (0 < Latency r)%Q →
      (∀ r', r' ∈ probeAll nodes net_tie → (0 < Latency r')%Q →
             (Latency r <= Latency r')%Q) →
      validateCDNNode r = true) →
   selectBest b = Some b).
Proof.
  apply (selectBest_minimum_latency [node_a; node_b] net_tie schedule_01).
  - vm_compute. reflexivity.
  - exists (worker (net_tie 0) node_a). split; [|vm_compute; reflexivity].
    apply elem_of_probeAll. exists 0, node_a. split; reflexivity.
Defined.

(** C1 as stated fails: the first candidate passes the gate (50ms, about
    500KB/s), the second is faster to answer (30ms) and downloads at 50KB/s;
    every run returns, and under every schedule nothing is chosen. *)
Lemma selectBest_rejects_when_fastest_is_slow :
  validateCDNNode (worker (net_slow_download 0) node_a) = true ∧
  worker (net_slow_download 0) node_a
    ∈ probeAll [node_a; node_b] net_slow_download ∧
  findBestCDNNode [node_a; node_b] net_slow_download schedule_01
    = Some (worker (net_slow_download 1) node_b) ∧
  (∀ tr b, findBestCDNNode [node_a; node_b] net_slow_download tr = Some b →
           selectBest b = None).
Proof.
  split_and!.
  - vm_compute. reflexivity.
  - apply elem_of_probeAll. exists 0, node_a. split; reflexivity.
  - vm_compute. reflexivity.
  - intros tr b [[? _]|(_ & Hperm & ->)]%findBestCDNNode_reduce; [done|].
    set (arr := arrivals _ _ tr) in *.
    assert (worker (net_slow_download 1) node_b ∈ arr) as Hb.
    { rewrite Hperm. apply elem_of_probeAll. exists 1, node_b. split; reflexivity. }
    pose proof (reduce_min _ _ Hb ltac:(by vm_compute)) as Hmin.
    destruct (reduce_origin arr) as [Hinit|[Hin _]].
    { rewrite Hinit in Hmin. by vm_compute in Hmin. }
    assert (reduce arr ∈ probeAll [node_a; node_b] net_slow_download) as Hin'
      by (by rewrite <- Hperm).
    apply elem_of_probeAll in Hin' as (i & n & Hi & Hr).
    destruct i as [|[|i]]; simpl in Hi; [| |done]; injection Hi as <-.
    + rewrite Hr in Hmin. by vm_compute in Hmin.
    + rewrite Hr. vm_compute. reflexivity.
Qed.

Lemma arrivals_nil net tr : arrivals [] net tr = [].
Proof.
  unfold arrivals. destruct (exec [] net tr init) as [s|] eqn:Hex; [|done].
  destruct (inv_exec _ _ _ _ _ (inv_init _ _) Hex)
    as [Hsp Hsent _ _ _ _ Hch _ _ _].
  destruct (sent s) as [|i l] eqn:Hs.
  - apply Forall2_nil_inv_l in Hch. by destruct (received s).
  - specialize (Hsent i). simpl in Hsp.
    destruct Hsent as [[? _] _]; [left | lia].
Qed.

(** C4, as the code has it.  Two runs over the same candidates return nodes
    of the same latency, and the same node when the values arrive in the
    same order; among candidates that tie for the minimum latency, the one
    whose value arrives first on the channel is returned. *)
Theorem tie_broken_by_arrival nodes net tr tr' b b' :
  findBestCDNNode nodes net tr = Some b →
  findBestCDNNode nodes net tr' = Some b' →
  (Latency b == Latency b')%Q ∧
  (arrivals nodes net tr = arrivals nodes net tr' → b = b') ∧
  (∀ pre r post,
     arrivals nodes net tr = pre ++ r :: post →
     (0 < Latency r)%Q → (Latency r < 1000)%Q →
     (∀ m, m ∈ pre → (0 < Latency m)%Q → (Latency r < Latency m)%Q) →
     (∀ m, m ∈ post → (0 < Latency m)%Q → (Latency r <= Latency m)%Q) →
     b = r).
Proof.
  intros [[Hnil ->]|(Hne & Hperm & ->)]%findBestCDNNode_reduce
         [[Hnil' ->]|(Hne' & Hperm' & ->)]%findBestCDNNode_reduce; try done.
  - split_and!; [done|done|].
    intros pre r post Harr. exfalso.
    rewrite Hnil, arrivals_nil in Harr. by destruct pre.
  - split_and!.
    + apply reduce_latency_Permutation. by rewrite Hperm, Hperm'.
    + by intros ->.
    + intros pre r post -> ????. by apply reduce_first_minimum.
Qed.

Lemma tie_broken_by_arrival_witness :
  let nodes := [node_a; node_b] in
  let b := worker (net_tie 0) node_a in
  let b' := worker (net_tie 1) node_b in
  (Latency b == Latency b')%Q ∧
  (arrivals nodes net_tie schedule_01 = arrivals nodes net_tie schedule_10 →
   b = b') ∧
  (∀ pre r post,
     arrivals nodes net_tie schedule_01 = pre ++ r :: post →
     (0 < Latency r)%Q → (Latency r < 1000)%Q →
     (∀ m, m ∈ pre → (0 < Latency m)%Q → (Latency r < Latency m)%Q) →
     (∀ m, m ∈ post → (0 < Latency m)%Q → (Latency r <= Latency m)%Q) →
     b = r).
Proof.
  apply (tie_broken_by_arrival [node_a; node_b] net_tie schedule_01 schedule_10);
    vm_compute; reflexivity.
Defined.

(** C4 as stated fails: two candidates answer in 30ms and pass the gate;
    the run in which worker 0 sends first chooses the first, the run in
    which worker 1 sends first chooses the second. *)
Lemma tie_choice_depends_on_completion_order :
  (selectBest <$> findBestCDNNode [node_a; node_b] net_tie schedule_01)
    = Some (Some (worker (net_tie 0) node_a)) ∧
  (selectBest <$> findBestCDNNode [node_a; node_b] net_tie schedule_10)
    = Some (Some (worker (net_tie 1) node_b)) ∧
  IP (worker (net_tie 0) node_a) = str "1.2.3.4" ∧
  IP (worker (net_tie 1) node_b) = str "5.6.7.8" ∧
  str "1.2.3.4" ≠ str "5.6.7.8".
Proof.
  split_and!; try (vm_compute; reflexivity). by vm_compute.
Qed.

(** ** The download probe *)

(** The rate the claim speaks of: the bytes transferred over the elapsed
    seconds (in bytes per second). *)
Definition bytes_over_seconds (bytes : N) (elapsed : positive) : Q :=
  (inject_Z (Z.of_N bytes) / Seconds (Z.pos elapsed))%Q.

Lemma testLatency_pos d : (0 < d)%N → Qltb 0 (testLatency (DialOk d)) = true.
Proof.
  intros Hd. apply Qltb_lt. unfold testLatency, Seconds, Qlt. simpl. lia.
Qed.

(** C3, as the code has it.  For a candidate whose dial succeeded after a
    positive time: when the download completes, the recorded throughput
    times the elapsed seconds is 4500/1024, that is 4500 bytes counted in
    KB, whatever the number of bytes transferred; when the download fails,
    the recorded throughput is 0. *)
Theorem recorded_throughput p n d :
  dialed p = DialOk d → (0 < d)%N →
  match fetched p with
  | Fetched bytes elapsed =>
      (Speed (worker p n) * Seconds (Z.pos elapsed) * 1024 == 4500)%Q
  | GetFailed | CopyFailed => Speed (worker p n) = 0%Q
  end.
Proof.
  intros Hp Hd. unfold worker. simpl. rewrite Hp, testLatency_pos by done.
  destruct (fetched p) as [| |bytes elapsed]; simpl; [done|done|].
  unfold Seconds. field. done.
Qed.

Lemma recorded_throughput_witness :
  (Speed (worker (mkProbe (DialOk 30000000) (Fetched 9000 1000000000)) node_a)
   * Seconds 1000000000 * 1024 == 4500)%Q.
Proof.
  apply (recorded_throughput
           (mkProbe (DialOk 30000000) (Fetched 9000 1000000000)) node_a 30000000);
    reflexivity.
Defined.

(** C3 as stated fails: a download that moves 9000 bytes in one second is
    recorded as 4500/1024 KB/s, which is neither 9000 bytes per second nor
    its value in KB per second. *)
Lemma recorded_throughput_ignores_bytes :
  let p := mkProbe (DialOk 30000000) (Fetched 9000 1000000000) in
  (Speed (worker p node_a) == 4500 / 1024)%Q ∧
  ¬ (Speed (worker p node_a) == bytes_over_seconds 9000 1000000000)%Q ∧
  ¬ (Speed (worker p node_a) == bytes_over_seconds 9000 1000000000 / 1024)%Q.
Proof.
  split_and!; [by vm_compute | |]; intros H; by vm_compute in H.
Qed.

End SmartCDNFacts.

(** * Go strings: properties *)

(** A token: a non-empty string without white space. *)
Definition token (s : gostring) : Prop :=
  s ≠ [] ∧ Forall (λ r, isSpace r = false) s.

(** A string with no white space at either end. *)
Definition trimmed (s : gostring) : Prop :=
  (∀ r, head s = Some r → isSpace r = false) ∧
  (∀ r, last s = Some r → isSpace r = false).

Lemma TrimLeft_head s r : head (TrimLeft s) = Some r → isSpace r = false.
Proof.
  induction s as [|c s IH]; simpl; [done|].
  destruct (isSpace c) eqn:Hc; [done|]. simpl. by intros [= <-].
Qed.

Lemma TrimLeft_id s :
  (∀ r, head s = Some r → isSpace r = false) → TrimLeft s = s.
Proof.
  destruct s as [|c s]; simpl; [done|]. intros H. by rewrite (H c).
Qed.

Lemma TrimLeft_elem_of s r : r ∈ TrimLeft s → r ∈ s.
Proof.
  induction s as [|c s IH]; simpl; [done|].
  destruct (isSpace c); [|done]. intros ?%IH. by right.
Qed.

Lemma TrimLeft_snoc s r :
  isSpace r = false → TrimLeft (s ++ [r]) = TrimLeft s ++ [r].
Proof.
  intros Hr. induction s as [|c s IH]; simpl; [by rewrite Hr|].
  by destruct (isSpace c).
Qed.

Lemma TrimRight_cons r s :
  isSpace r = false → TrimRight (r :: s) = r :: TrimRight s.
Proof.
  intros Hr. unfold TrimRight.
  by rewrite reverse_cons, TrimLeft_snoc, reverse_app by done.
Qed.

Lemma TrimRight_last s r : last (TrimRight s) = Some r → isSpace r = false.
Proof. unfold TrimRight. rewrite last_reverse. apply TrimLeft_head. Qed.

Lemma TrimRight_id s :
  (∀ r, last s = Some r → isSpace r = false) → TrimRight s = s.
Proof.
  intros H. unfold TrimRight. rewrite TrimLeft_id, reverse_involutive; [done|].
  intros r. rewrite head_reverse. apply H.
Qed.

Lemma TrimRight_elem_of s r : r ∈ TrimRight s → r ∈ s.
Proof.
  unfold TrimRight. rewrite elem_of_reverse. intros ?%TrimLeft_elem_of.
  by apply elem_of_reverse.
Qed.

Lemma TrimSpace_trimmed s : trimmed (TrimSpace s).
Proof.
  unfold TrimSpace. split; [|apply TrimRight_last].
  destruct (TrimLeft s) as [|c t] eqn:Ht; [done|].
  assert (isSpace c = false) as Hc by (apply (TrimLeft_head s); by rewrite Ht).
  rewrite TrimRight_cons by done. simpl. by intros r [= <-].
Qed.

Lemma TrimSpace_id s : trimmed s → TrimSpace s = s.
Proof.
  intros [Hh Hl]. unfold TrimSpace. rewrite TrimLeft_id by done.
  by apply TrimRight_id.
Qed.

Lemma TrimSpace_idemp s : TrimSpace (TrimSpace s) = TrimSpace s.
Proof. apply TrimSpace_id, TrimSpace_trimmed. Qed.

Lemma TrimSpace_elem_of s r : r ∈ TrimSpace s → r ∈ s.
Proof. intros ?%TrimRight_elem_of. by apply TrimLeft_elem_of. Qed.

Lemma token_trimmed s : token s → trimmed s.
Proof.
  intros [_ Hs]. rewrite Forall_forall in Hs.
  split; intros r Hr; apply Hs.
  - by eapply head_Some_elem_of.
  - by eapply last_Some_elem_of.
Qed.

Lemma token_no_newline s : token s → 10%N ∉ s.
Proof.
  intros [_ Hs] Hin. rewrite Forall_forall in Hs. by apply Hs in Hin.
Qed.

(** *** [Fields] and [Join] *)

Lemma fieldsFrom_app field tok s :
  Forall (λ r, isSpace r = false) tok →
  fieldsFrom field (tok ++ s) = fieldsFrom (field ++ tok) s.
Proof.
  intros Htok. revert field.
  induction Htok as [|r tok Hr _ IH]; intros field; simpl.
  - by rewrite (right_id_L [] (++)).
  - by rewrite Hr, IH, <- (assoc_L (++)).
Qed.

Lemma fieldsFrom_space field r s :
  isSpace r = true → field ≠ [] →
  fieldsFrom field (r :: s) = field :: fieldsFrom [] s.
Proof. intros Hr Hf. simpl. rewrite Hr. by destruct field. Qed.

Lemma fieldsFrom_tokens field s :
  Forall (λ r, isSpace r = false) field → Forall token (fieldsFrom field s).
Proof.
  revert field. induction s as [|r s IH]; intros field Hf; simpl.
  - destruct field; [constructor|].
    constructor; [by split | constructor].
  - destruct (isSpace r) eqn:Hr.
    + destruct field; [by apply IH|].
      constructor; [by split | by apply IH].
    + apply IH, Forall_app. split; [done|]. by constructor.
Qed.

Lemma Fields_tokens s : Forall token (Fields s).
Proof. by apply fieldsFrom_tokens. Qed.

Lemma Join_cons e es sep :
  es ≠ [] → Join (e :: es) sep = e ++ sep ++ Join es sep.
Proof. by destruct es. Qed.

Lemma Join_elem_of r elems sep :
  r ∈ Join elems sep → r ∈ sep ∨ ∃ e, e ∈ elems ∧ r ∈ e.
Proof.
  induction elems as [|e [|e' es] IH]; simpl.
  - by intros ?%elem_of_nil.
  - intros ?. right. exists e. split; [left | done].
  - rewrite !elem_of_app. intros [?|[?|Hr]]; [|by left|].
    + right. exists e. split; [left | done].
    + destruct (IH Hr) as [?|(t & ? & ?)]; [by left|].
      right. exists t. split; [by right | done].
Qed.

Lemma Join_not_nil elems sep :
  elems ≠ [] → Forall token elems → Join elems sep ≠ [].
Proof.
  destruct elems as [|e [|e' es]]; [done| |];
    intros _ [[He _] _]%Forall_cons; simpl; [done|].
  by destruct e.
Qed.

Lemma Fields_Join elems :
  Forall token elems → Fields (Join elems [32%N]) = elems.
Proof.
  unfold Fields.
  induction elems as [|e [|e' es] IH]; intros Helems; [done| |].
  - apply Forall_cons in Helems as [[He Hsp] _]. simpl.
    pose proof (fieldsFrom_app [] e [] Hsp) as Hf.
    rewrite (right_id_L [] (++)) in Hf. rewrite Hf. simpl. by destruct e.
  - apply Forall_cons in Helems as [[He Hsp] Hes].
    rewrite Join_cons, fieldsFrom_app by done.
    change ([] ++ e) with e.
    change ([32%N] ++ ?s) with (32%N :: s).
    rewrite fieldsFrom_space by done. by rewrite IH.
Qed.

Lemma Join_trimmed elems : Forall token elems → trimmed (Join elems [32%N]).
Proof.
  induction elems as [|e [|e' es] IH]; intros Helems; [done| |].
  - apply Forall_cons in Helems as [He _]. by apply token_trimmed.
  - apply Forall_cons in Helems as [He Hes].
    destruct (token_trimmed e He) as [Hh _]. destruct (IH Hes) as [_ Hl].
    rewrite Join_cons by done. split; intros r.
    + rewrite head_app. destruct He as [He _].
      destruct e; [done|]. apply Hh.
    + rewrite (assoc_L (++)), last_app.
      pose proof (Join_not_nil (e' :: es) [32%N] ltac:(done) Hes) as Hne.
      apply last_is_Some in Hne as [z Hz]. rewrite Hz. intros [= <-].
      by apply Hl.
Qed.

Lemma Join_no_newline elems :
  Forall token elems → 10%N ∉ Join elems [32%N].
Proof.
  intros Helems [Hsp|(e & He & Hin)]%Join_elem_of.
  - by apply list_elem_of_singleton in Hsp.
  - rewrite Forall_forall in Helems. by apply (token_no_newline e); auto.
Qed.

Lemma HasPrefix_hash s :
  HasPrefix s (str "#") = true ↔ head s = Some 35%N.
Proof.
  change (str "#") with [35%N].
  destruct s as [|r [|r' s]]; cbn [HasPrefix head]; [done| |];
    rewrite andb_true_r, N.eqb_eq; naive_solver.
Qed.

(** *** The scanner *)

Lemma dropCR_id l : last l ≠ Some 13%N → dropCR l = l.
Proof.
  unfold dropCR. destruct (last l) as [r|]; [|done].
  destruct (N.eqb_spec r 13) as [->|]; done.
Qed.

Lemma dropCR_elem_of r l : r ∈ dropCR l → r ∈ l.
Proof.
  unfold dropCR. destruct (last l) as [c|]; [|done].
  destruct (c =? 13)%N; [|done].
  rewrite elem_of_take. intros (i & Hi & _). by eapply list_elem_of_lookup_2.
Qed.

Lemma scanLinesFrom_line line l rest :
  10%N ∉ l →
  scanLinesFrom line (l ++ 10%N :: rest)
  = dropCR (line ++ l) :: scanLinesFrom [] rest.
Proof.
  revert line. induction l as [|c l IH]; intros line Hl.
  - by rewrite (right_id_L [] (++)).
  - apply not_elem_of_cons in Hl as [Hc Hl].
    cbn [scanLinesFrom app]. destruct (N.eqb_spec c 10) as [->|_]; [done|].
    rewrite IH by done. by rewrite <- (assoc_L (++)).
Qed.

Lemma ScanLines_writeLines ls :
  Forall (λ l, (10%N ∉ l) ∧ last l ≠ Some 13%N) ls →
  ScanLines (writeLines ls) = ls.
Proof.
  unfold ScanLines, writeLines.
  induction 1 as [|l ls [Hnl Hcr] _ IH]; [done|].
  cbn [fmap list_fmap concat]. unfold Fprintln at 1.
  rewrite <- (assoc_L (++)). cbn [app].
  by rewrite scanLinesFrom_line, IH, dropCR_id.
Qed.

Lemma scanLinesFrom_no_newline line data :
  10%N ∉ line → Forall (λ l, 10%N ∉ l) (scanLinesFrom line data).
Proof.
  revert line. induction data as [|c data IH]; intros line Hline.
  - simpl. destruct line; [constructor|].
    constructor; [|constructor]. by intros ?%dropCR_elem_of.
  - cbn [scanLinesFrom]. destruct (N.eqb_spec c 10) as [->|Hc].
    + constructor; [by intros ?%dropCR_elem_of|]. apply IH, not_elem_of_nil.
    + apply IH. rewrite not_elem_of_app, not_elem_of_cons.
      split_and!; [done | congruence | apply not_elem_of_nil].
Qed.

Lemma ScanLines_no_newline data : Forall (λ l, 10%N ∉ l) (ScanLines data).
Proof. apply scanLinesFrom_no_newline, not_elem_of_nil. Qed.

(** A line that survives a write and a scan unchanged. *)
Definition clean (l : gostring) : Prop := trimmed l ∧ 10%N ∉ l.

Lemma clean_last l : clean l → last l ≠ Some 13%N.
Proof. intros [[_ Hl] _] H13. by apply Hl in H13. Qed.

Lemma ScanLines_writeLines_clean ls :
  Forall clean ls → ScanLines (writeLines ls) = ls.
Proof.
  intros Hls. apply ScanLines_writeLines.
  eapply Forall_impl; [exact Hls|]. intros l Hl.
  split; [apply Hl | by apply clean_last].
Qed.

Lemma TrimSpace_clean l : 10%N ∉ l → clean (TrimSpace l).
Proof.
  intros Hl. split; [apply TrimSpace_trimmed|]. by intros ?%TrimSpace_elem_of.
Qed.

Lemma Join_clean elems : Forall token elems → clean (Join elems [32%N]).
Proof. intros H. split; [by apply Join_trimmed | by apply Join_no_newline]. Qed.

(** * The hosts updater: properties *)

Module FastIPFacts.
Import FastIP.

(** ** The region filter of [findFastestIP] *)

Lemma ContainsAny_spec s chars :
  ContainsAny s chars = true ↔ ∃ r, r ∈ s ∧ r ∈ chars.
Proof.
  unfold ContainsAny. rewrite existsb_exists. split.
  - intros (r & Hr & (c & Hc & Heq)%existsb_exists).
    apply N.eqb_eq in Heq. subst c. exists r. by rewrite !list_elem_of_In.
  - intros (r & Hr & Hc). exists r. rewrite <- list_elem_of_In. split; [done|].
    apply existsb_exists. exists r. rewrite <- list_elem_of_In.
    by rewrite N.eqb_refl.
Qed.

(** "海南" (Hainan) and "Tokyo" as node names. *)
Definition hainan : gostring := [28023; 21335]%N.

(** C9. The region filter accepts a node name exactly when the name shares
    at least one code point with "北京上海广州深圳成都"; a node that did not
    time out and whose name shares one has its average time recorded under
    its IP.  The name "海南" passes, through the single character "海". *)
Theorem region_filter_matches_single_characters node :
  (ContainsAny (NodeName node) cities = true
   ↔ ∃ r, r ∈ NodeName node ∧ r ∈ cities) ∧
  (∀ ips, (Timeout node ≤ 0)%Z → ContainsAny (NodeName node) cities = true →
     collectNode ips node !! IP node
     = Some (default [] (ips !! IP node) ++ [AvgTime node])) ∧
  ContainsAny hainan cities = true.
Proof.
  split_and!; [apply ContainsAny_spec | | reflexivity].
  intros ips Ht Hc. unfold collectNode.
  destruct (Z.ltb_spec 0 (Timeout node)); [lia|].
  by rewrite Hc, lookup_insert_eq.
Qed.

(** ** When every entry fails the region filter *)


Section Shuffled.
Context (shuffle : ∀ A : Type, list A → list A) (ParseIP : gostring → bool).
Hypothesis shuffle_perm : ∀ A (l : list A), shuffle A l ≡ₚ l.



End Shuffled.

(** The entries of a map visited in the order of [map_to_list]. *)
Definition in_order (A : Type) (l : list A) : list A := l.

Lemma in_order_perm A (l : list A) : in_order A l ≡ₚ l.
Proof. done. Qed.





(** ** [updateHosts]: the loop over the lines *)

Definition empty_vars : vars := mkVars [] ∅ [].

(** The variables after some more lines: the effects of the lines add up. *)
Definition merge (v e : vars) : vars :=
  mkVars (newLines v ++ newLines e)
         (existingDomains e ∪ existingDomains v)
         (stdout v ++ stdout e).

Lemma merge_empty_r v : merge v empty_vars = v.
Proof.
  destruct v as [ls ex out]. unfold merge. simpl.
  by rewrite !(right_id_L [] (++)), (left_id_L ∅ (∪)).
Qed.

Lemma merge_assoc u v w : merge (merge u v) w = merge u (merge v w).
Proof.
  unfold merge. simpl. by rewrite !(assoc_L (++)), !(assoc_L (∪)).
Qed.

Lemma keep_merge line v : keep line v = merge v (keep line empty_vars).
Proof.
  unfold keep, merge. simpl. by rewrite (left_id_L ∅ (∪)), (right_id_L [] (++)).
Qed.

Lemma processLine_merge ipMap v text :
  processLine ipMap v text = merge v (processLine ipMap empty_vars text).
Proof.
  unfold processLine.
  destruct (HasPrefix (TrimSpace text) (str "#")); [apply keep_merge|].
  destruct (Fields (TrimSpace text)) as [|address [|name names]];
    [apply keep_merge | apply keep_merge |].
  destruct (firstMapped ipMap (name :: names)) as [[domain newIP]|];
    [|apply keep_merge].
  case_decide; unfold merge; simpl; by rewrite (right_id_L ∅ (∪)).
Qed.

Lemma foldl_processLine ipMap v texts :
  foldl (processLine ipMap) v texts
  = merge v (foldl (processLine ipMap) empty_vars texts).
Proof.
  revert v. induction texts as [|t texts IH]; intros v; simpl.
  - by rewrite merge_empty_r.
  - rewrite IH, (IH (processLine _ empty_vars t)), <- merge_assoc.
    by rewrite <- processLine_merge.
Qed.

Lemma foldl_processLine_snoc ipMap texts text :
  foldl (processLine ipMap) empty_vars (texts ++ [text])
  = merge (foldl (processLine ipMap) empty_vars texts)
          (processLine ipMap empty_vars text).
Proof. rewrite foldl_app. simpl. apply processLine_merge. Qed.






(** [updateHosts] succeeds exactly when the file can be read and created,
    and then writes the lines of [rewrite]. *)
Lemma updateHosts_success shuffle ipMap sys sys' out :
  updateHosts shuffle ipMap sys = (sys', out, None) ↔
  ∃ path content,
    hostsPathOf (GOOS sys) = Some path ∧ files sys !! path = Some content ∧
    (path ∉ readonly sys) ∧
    out = stdout (rewrite shuffle ipMap content) ∧
    sys' = mkSystem (GOOS sys)
             (<[path := writeLines (newLines (rewrite shuffle ipMap content))]>
                (files sys))
             (readonly sys).
Proof.
  unfold updateHosts. split.
  - destruct (hostsPathOf (GOOS sys)) as [path|]; [|done].
    destruct (files sys !! path) as [content|] eqn:Hc; [|done].
    case_decide; [done|]. intros [= <- <-]. by exists path, content.
  - intros (path & content & -> & -> & Hro & -> & ->).
    by rewrite decide_False.
Qed.


Lemma processLine_kept ipMap text :
  HasPrefix (TrimSpace text) (str "#") = true ∨
  length (Fields (TrimSpace text)) < 2 →
  processLine ipMap empty_vars text = keep (TrimSpace text) empty_vars.
Proof.
  unfold processLine. intros [->|Hlen]; [done|].
  destruct (HasPrefix (TrimSpace text) (str "#")); [done|].
  destruct (Fields (TrimSpace text)) as [|address [|name names]];
    [done | done | simpl in Hlen; lia].
Qed.

(** ** Sample systems *)

Definition hosts_path : gostring := str "/etc/hosts".

Definition linux (content : gostring) : system :=
  mkSystem (str "linux") {[hosts_path := content]} ∅.

Definition github_map : gmap gostring gostring :=
  {[str "github.com" := str "20.205.243.166"]}.

(** A comment line with a trailing space, and a line of one field with
    white space around it. *)
Definition hosts_with_spaces : gostring :=
  str "# c " ++ [10%N] ++ str "  localhost " ++ [10%N].




(** ** Lines that name several mapped hosts *)

Lemma firstMapped_Some ipMap names d ip :
  firstMapped ipMap names = Some (d, ip) → ipMap !! d = Some ip ∧ d ∈ names.
Proof.
  induction names as [|n names IH]; simpl; [done|].
  destruct (ipMap !! n) as [ip'|] eqn:Hn.
  - intros [= <- <-]. split; [done | left].
  - intros [? ?]%IH. split; [done | by right].
Qed.

(** The line written for a host line whose first mapped name is [d] with
    the new address [ip], and what the line marks and prints. *)
Lemma processLine_mapped ipMap text address names d ip :
  HasPrefix (TrimSpace text) (str "#") = false →
  Fields (TrimSpace text) = address :: names →
  firstMapped ipMap names = Some (d, ip) →
  processLine ipMap empty_vars text
  = if decide (address ≠ ip)
    then mkVars [ip ++ str " " ++ Join names (str " ")] {[d]} [Updated d ip]
    else mkVars [TrimSpace text] {[d]} [Unchanged d].
Proof.
  intros Hc Hf Hm. unfold processLine. rewrite Hc, Hf.
  destruct names as [|name names]; [done|]. rewrite Hm.
  case_decide; simpl; by rewrite (right_id_L ∅ (∪)).
Qed.

Lemma existingDomains_scan ipMap texts d :
  d ∈ existingDomains (foldl (processLine ipMap) empty_vars texts) ↔
  ∃ text, text ∈ texts ∧ d ∈ existingDomains (processLine ipMap empty_vars text).
Proof.
  induction texts as [|t texts IH] using rev_ind.
  - simpl. split; [by intros ?%elem_of_empty|]. by intros (? & ?%elem_of_nil & _).
  - rewrite foldl_processLine_snoc. unfold merge. simpl.
    rewrite elem_of_union, IH. setoid_rewrite elem_of_app.
    setoid_rewrite list_elem_of_singleton. naive_solver.
Qed.






(** ** A second run *)

(** The maps [main] builds: the domains and the addresses are tokens, and
    an address does not start with '#'. *)
Definition wf_map (ipMap : gmap gostring gostring) : Prop :=
  map_Forall (λ d ip, token d ∧ token ip ∧ head ip ≠ Some 35%N) ipMap.

(** The maps [main] builds are of this kind, [net.ParseIP] accepting only
    tokens that do not start with '#'. *)
Lemma findFastestIP_inl shuffle ParseIP result domain ip :
  findFastestIP shuffle ParseIP result domain = inl ip → ParseIP ip = true.
Proof.
  unfold findFastestIP.
  destruct (foldl betterIP _ _) as [minAvg [|r bestIP]]; [done|].
  destruct (ParseIP (r :: bestIP)) eqn:Hp; [|done]. by intros [= <-].
Qed.

Lemma domains_tokens : Forall token domains.
Proof. repeat constructor; by vm_compute. Qed.

Lemma bestIPs_wf shuffle ParseIP lookup :
  (∀ s, ParseIP s = true → token s ∧ head s ≠ Some 35%N) →
  wf_map (bestIPs shuffle ParseIP lookup).
Proof.
  intros Hparse. unfold bestIPs.
  assert (wf_map (∅ : gmap gostring gostring)) as Hacc by apply map_Forall_empty.
  revert Hacc. generalize (∅ : gmap gostring gostring).
  pose proof domains_tokens as Hdoms.
  induction Hdoms as [|d ds Hd _ IH]; intros acc Hacc; [done|].
  cbn [foldl]. apply IH.
  destruct (getBestIP shuffle ParseIP lookup d) as [ip|] eqn:Hbest; [|done].
  apply map_Forall_insert_2; [|done].
  unfold getBestIP in Hbest. destruct (lookup d); [|done].
  apply findFastestIP_inl, Hparse in Hbest as [? ?]. done.
Qed.

Definition all_unchanged (msgs : list message) : Prop :=
  Forall (λ m, ∃ d, m = Unchanged d) msgs.




Lemma processLine_TrimSpace ipMap v text :
  processLine ipMap v (TrimSpace text) = processLine ipMap v text.
Proof. unfold processLine. by rewrite TrimSpace_idemp. Qed.

Lemma head_token_app ip s : token ip → head (ip ++ s) = head ip.
Proof. intros [Hne _]. by destruct ip. Qed.

(** The written form [ip ++ " " ++ Join names " "] of a host line. *)
Lemma host_line_facts ip names :
  token ip → head ip ≠ Some 35%N → names ≠ [] → Forall token names →
  let l := ip ++ str " " ++ Join names (str " ") in
  clean l ∧ TrimSpace l = l ∧ HasPrefix l (str "#") = false ∧
  Fields l = ip :: names.
Proof.
  intros Hip Hhash Hne Hnames l.
  assert (l = Join (ip :: names) [32%N]) as Hl by (by rewrite Join_cons).
  assert (Forall token (ip :: names)) as Htoks by (by constructor).
  split_and!.
  - rewrite Hl. by apply Join_clean.
  - apply TrimSpace_id. rewrite Hl. by apply Join_trimmed.
  - destruct (HasPrefix l (str "#")) eqn:Hp; [|done].
    apply HasPrefix_hash in Hp. unfold l in Hp.
    by rewrite head_token_app in Hp.
  - rewrite Hl. by apply Fields_Join.
Qed.

Lemma processLine_settled ipMap text :
  wf_map ipMap → 10%N ∉ text →
  ∃ l msgs,
    newLines (processLine ipMap empty_vars text) = [l] ∧ clean l ∧
    processLine ipMap empty_vars l
    = mkVars [l] (existingDomains (processLine ipMap empty_vars text)) msgs ∧
    all_unchanged msgs ∧
    ∀ d, d ∈ existingDomains (processLine ipMap empty_vars text) →
         Unchanged d ∈ msgs.
Proof.
  intros Hwf Hnl.
  pose proof (TrimSpace_clean text Hnl) as Hclean.
  pose proof (processLine_TrimSpace ipMap empty_vars text) as Htrim.
  (* The cases in which the line is written trimmed. *)
  assert (∀ E msgs,
            processLine ipMap empty_vars text = mkVars [TrimSpace text] E msgs →
            all_unchanged msgs → (∀ d, d ∈ E → Unchanged d ∈ msgs) →
            ∃ l msgs,
              newLines (processLine ipMap empty_vars text) = [l] ∧ clean l ∧
              processLine ipMap empty_vars l
              = mkVars [l] (existingDomains (processLine ipMap empty_vars text))
                  msgs ∧
              all_unchanged msgs ∧
              ∀ d, d ∈ existingDomains (processLine ipMap empty_vars text) →
                   Unchanged d ∈ msgs) as Hsame.
  { intros E msgs Heq Hmsgs HE. exists (TrimSpace text), msgs.
    rewrite Htrim, Heq. by split_and!. }
  destruct (HasPrefix (TrimSpace text) (str "#")) eqn:Hc.
  { apply (Hsame ∅ []); [by rewrite processLine_kept by auto | constructor |].
    by intros d ?%elem_of_empty. }
  destruct (Fields (TrimSpace text)) as [|address names] eqn:Hf.
  { apply (Hsame ∅ []); [|constructor|by intros d ?%elem_of_empty].
    rewrite processLine_kept; [done|]. right. rewrite Hf. simpl. lia. }
  destruct (firstMapped ipMap names) as [[d ip]|] eqn:Hm.
  2:{ apply (Hsame ∅ []); [|constructor|by intros d ?%elem_of_empty].
      unfold processLine. rewrite Hc, Hf, Hm. by destruct names. }
  pose proof (processLine_mapped _ _ _ _ _ _ Hc Hf Hm) as Hline.
  destruct (decide (address ≠ ip)) as [Hne|Heq].
  2:{ apply (Hsame {[d]} [Unchanged d]); [done | |].
      - repeat constructor. by exists d.
      - intros d' ->%elem_of_singleton. left. }
  destruct (firstMapped_Some _ _ _ _ Hm) as [Hip Hd].
  destruct (Hwf d ip Hip) as (_ & Htok & Hhash).
  assert (Forall token names) as Hnames.
  { pose proof (Fields_tokens (TrimSpace text)) as Htoks.
    rewrite Hf in Htoks. by apply Forall_cons in Htoks as [_ ?]. }
  assert (names ≠ []) as Hnn by (intros ->; by apply elem_of_nil in Hd).
  destruct (host_line_facts ip names Htok Hhash Hnn Hnames)
    as (Hcl & Hid & Hnc & Hfl).
  exists (ip ++ str " " ++ Join names (str " ")), [Unchanged d].
  rewrite Hline. cbn [newLines existingDomains]. split_and!; [done | done | | |].
  - pose proof (processLine_mapped ipMap
                  (ip ++ str " " ++ Join names (str " ")) ip names d ip) as Hagain.
    rewrite Hid in Hagain. rewrite (Hagain Hnc Hfl Hm).
    case_decide as Hsame'; [by destruct Hsame' | done].
  - repeat constructor. by exists d.
  - intros d' ->%elem_of_singleton. left.
Qed.

Lemma added_line_settled ipMap d ip :
  wf_map ipMap → ipMap !! d = Some ip →
  clean (ip ++ str " " ++ d) ∧
  processLine ipMap empty_vars (ip ++ str " " ++ d)
  = mkVars [ip ++ str " " ++ d] {[d]} [Unchanged d].
Proof.
  intros Hwf Hip. destruct (Hwf d ip Hip) as (Hd & Htok & Hhash).
  destruct (host_line_facts ip [d] Htok Hhash ltac:(done) ltac:(by constructor))
    as (Hcl & Hid & Hnc & Hfl).
  change (Join [d] (str " ")) with d in *. split; [done|].
  pose proof (processLine_mapped ipMap (ip ++ str " " ++ d) ip [d] d ip) as Hline.
  rewrite Hid in Hline. rewrite Hline; [|done|done|by simpl; rewrite Hip].
  case_decide as Hsame; [by destruct Hsame | done].
Qed.






Lemma wf_github_map : wf_map github_map.
Proof.
  apply map_Forall_singleton. split_and!; [split; [done|] | split; [done|] | done];
    by repeat constructor.
Qed.


End FastIPFacts.

(** * The CDN optimizer: further properties *)

Module SmartCDNMore.
Import SmartCDN SmartCDNFacts.

(** ** The channel and the schedules of [findBestCDNNode] *)

Lemma exec_app nodes net tr tr' s :
  exec nodes net (tr ++ tr') s
  = match exec nodes net tr s with
    | Some s' => exec nodes net tr' s'
    | None => None
    end.
Proof.
  revert s. induction tr as [|e tr IH]; intros s; simpl; [done|].
  by destruct (step nodes net e s).
Qed.

(** X1. In every state a schedule of [findBestCDNNode] can reach, a worker
    that has not sent its value yet finds the channel open and not full:
    its send neither panics nor blocks, it can take place at once. *)
Theorem send_never_panics_nor_blocks nodes net tr s i :
  exec nodes net tr init = Some s → i ∈ running s →
  closed s = false ∧ length (results s) < length nodes ∧
  ∃ s', step nodes net (EvSend i) s = Some s'.
Proof.
  intros Hex Hi.
  pose proof (inv_exec _ _ _ _ _ (inv_init nodes net) Hex) as Hinv.
  destruct (inv_send_enabled _ _ _ _ Hinv Hi) as (Hc & Hlen & [n Hn]).
  split_and!; [done | done |]. simpl.
  rewrite Hn, decide_True, Hc, decide_True by done. eauto.
Qed.

Lemma send_never_panics_nor_blocks_witness :
  let s := default init
             (exec [node_a; node_b] net_tie [EvSpawn; EvSpawn; EvSend 0] init) in
  closed s = false ∧ length (results s) < 2 ∧
  ∃ s', step [node_a; node_b] net_tie (EvSend 1) s = Some s'.
Proof.
  apply (send_never_panics_nor_blocks [node_a; node_b] net_tie
           [EvSpawn; EvSpawn; EvSend 0]); by vm_compute.
Defined.

(** Each event uses up exactly one unit of [measure]. *)
Lemma step_measure_exact nodes net e s s' :
  inv nodes net s → step nodes net e s = Some s' →
  measure nodes s = S (measure nodes s').
Proof.
  intros [Hsp Hsent Hrun Hsending Hnd Hwg Hch Hcl Hbest Hret] Hstep.
  unfold measure. destruct e; simpl in Hstep.
  - case_decide; [|done]. injection Hstep as <-. simpl.
    rewrite (size_union {[spawned s]} (running s)), size_singleton; [lia|].
    set_unfold. intros i -> ?%Hrun. lia.
  - destruct (outcome nodes net i) as [n|]; [|done].
    case_decide as Hi; [|done]. destruct (closed s); [done|].
    case_decide; [|done]. injection Hstep as <-. simpl.
    rewrite (size_union {[i]} (sending s)), size_singleton.
    2:{ set_unfold. intros j -> Hj%Hsending. apply Hsent in Hj. tauto. }
    rewrite size_difference, size_singleton, length_app by set_solver.
    assert (size (running s) ≠ 0); [|simpl; lia].
    intros ?%size_empty_inv. set_solver.
  - case_decide as Hi; [|done].
    destruct (wg s); [done|]. injection Hstep as <-. simpl.
    rewrite size_difference, size_singleton by set_solver.
    assert (size (sending s) ≠ 0); [|lia].
    intros ?%size_empty_inv. set_solver.
  - case_decide; [|done]. destruct (wg s); [|done].
    destruct (closed s); [done|]. injection Hstep as <-. simpl. lia.
  - case_decide; [|done]. destruct (results s); [done|].
    destruct (returned s); [done|]. injection Hstep as <-. simpl. lia.
  - case_decide; [|done]. destruct (results s); [|done].
    destruct (closed s); [|done].
    destruct (returned s); [done|]. injection Hstep as <-. simpl. lia.
Qed.

Lemma exec_measure_exact nodes net tr : ∀ s s',
  inv nodes net s → exec nodes net tr s = Some s' →
  measure nodes s = length tr + measure nodes s'.
Proof.
  induction tr as [|e tr IH]; simpl; intros s s' Hinv Hex.
  - by injection Hex as <-.
  - destruct (step nodes net e s) as [s1|] eqn:Hstep; [|done].
    rewrite (step_measure_exact _ _ _ _ _ Hinv Hstep).
    by rewrite (IH _ _ (inv_step _ _ _ _ _ Hinv Hstep) Hex).
Qed.

Lemma measure_returned nodes net s :
  inv nodes net s → returned s = true → measure nodes s = 0.
Proof.
  intros Hinv Hr. destruct (inv_returned _ _ _ Hinv Hr) as [Hc Hres].
  destruct (inv_closed _ _ _ Hinv Hc) as [Hall H0].
  pose proof (inv_wg _ _ _ Hinv) as Hwg.
  unfold measure. rewrite Hall, Hres, Hc, Hr. simpl. lia.
Qed.

(** X2. A schedule of [findBestCDNNode] over N candidates has at most
    4N + 2 events, and exactly 4N + 2 when it reaches the return (N spawns,
    N sends, N [wg.Done], N receives, the close and the return): no schedule
    runs forever. *)
Theorem schedule_length nodes net tr s :
  exec nodes net tr init = Some s →
  length tr ≤ 4 * length nodes + 2 ∧
  (returned s = true → length tr = 4 * length nodes + 2).
Proof.
  intros Hex.
  pose proof (exec_measure_exact _ _ _ _ _ (inv_init nodes net) Hex) as Hm.
  assert (measure nodes init = 4 * length nodes + 2) as Hinit.
  { unfold measure. cbn [init spawned running sending results closed returned].
    rewrite size_empty. simpl. lia. }
  split; [lia|]. intros Hr.
  rewrite (measure_returned nodes net s) in Hm; [lia| |done].
  by eapply inv_exec; [apply inv_init|].
Qed.

Lemma schedule_length_witness :
  length schedule_early ≤ 4 * 2 + 2 ∧
  (returned (default init (exec [node_a; node_b] net_tie schedule_early init))
   = true → length schedule_early = 4 * 2 + 2).
Proof.
  apply (schedule_length [node_a; node_b] net_tie schedule_early). by vm_compute.
Defined.

(** X3. [findBestCDNNode] cannot deadlock: every schedule that can be run,
    however far it got, extends to one that reaches the return. *)
Theorem schedule_extends_to_return nodes net tr s :
  exec nodes net tr init = Some s →
  ∃ tr' s', exec nodes net (tr ++ tr') init = Some s' ∧ returned s' = true.
Proof.
  intros Hex.
  destruct (completes_from nodes net s) as (tr' & s' & Hex' & Hr).
  { by eapply inv_exec; [apply inv_init|]. }
  exists tr', s'. by rewrite exec_app, Hex.
Qed.

Lemma schedule_extends_to_return_witness :
  ∃ tr' s',
    exec [node_a; node_b] net_tie ([EvSpawn; EvSend 0] ++ tr') init = Some s' ∧
    returned s' = true.
Proof.
  apply (schedule_extends_to_return [node_a; node_b] net_tie [EvSpawn; EvSend 0]
           (default init (exec [node_a; node_b] net_tie [EvSpawn; EvSend 0] init))).
  by vm_compute.
Defined.

(** ** What [findBestCDNNode] can return *)

Lemma reduce_cases arrived :
  (reduce arrived = initBest ∧
   ∀ v, v ∈ arrived → (0 < Latency v)%Q → (1000 <= Latency v)%Q) ∨
  (reduce arrived ∈ arrived ∧
   (0 < Latency (reduce arrived))%Q ∧ (Latency (reduce arrived) < 1000)%Q).
Proof.
  induction arrived as [|n arrived IH] using rev_ind.
  { left. split; [done|]. by intros v ?%elem_of_nil. }
  rewrite reduce_snoc.
  destruct (pick_cases (reduce arrived) n) as [(Hp & H0 & Hlt)|[Hp Hn]];
    rewrite Hp.
  - right. pose proof (reduce_bound arrived).
    split_and!; [|done|lra]. rewrite elem_of_app, list_elem_of_singleton. auto.
  - destruct IH as [[Hinit Hall]|(Hin & H0 & Hlt)].
    + left. split; [done|]. intros v [?|Hv]%elem_of_app; [by apply Hall|].
      apply list_elem_of_singleton in Hv. subst v.
      intros Hv. rewrite Hinit in Hn. simpl in Hn. destruct Hn; lra.
    + right. split_and!; [|done|done]. rewrite elem_of_app. auto.
Qed.

(** X5. [findBestCDNNode] returns the default node for an empty slice; else
    it returns the initial record (latency 1000, no IP) when no candidate
    answered in less than 1000ms, and otherwise one of the probed
    candidates, with a latency strictly between 0 and 1000ms: a candidate
    at 1000ms or slower is never returned. *)
Theorem findBestCDNNode_range nodes net tr b :
  findBestCDNNode nodes net tr = Some b →
  (nodes = [] ∧ b = defaultNode) ∨
  (nodes ≠ [] ∧ b = initBest ∧
   ∀ v, v ∈ probeAll nodes net → (0 < Latency v)%Q → (1000 <= Latency v)%Q) ∨
  (b ∈ probeAll nodes net ∧ (0 < Latency b)%Q ∧ (Latency b < 1000)%Q).
Proof.
  intros [[-> ->]|(Hne & Hperm & ->)]%findBestCDNNode_reduce; [by left|].
  right. destruct (reduce_cases (arrivals nodes net tr))
    as [[Hinit Hall]|(Hin & H0 & Hlt)].
  - left. split_and!; [done | done |]. intros v Hv. apply Hall. by rewrite Hperm.
  - right. split_and!; [|done|done]. by rewrite <- Hperm.
Qed.

Lemma findBestCDNNode_range_witness :
  let nodes := [node_a; node_b] in
  let b := worker (net_tie 0) node_a in
  (nodes = [] ∧ b = defaultNode) ∨
  (nodes ≠ [] ∧ b = initBest ∧
   ∀ v, v ∈ probeAll nodes net_tie → (0 < Latency v)%Q → (1000 <= Latency v)%Q) ∨
  (b ∈ probeAll nodes net_tie ∧ (0 < Latency b)%Q ∧ (Latency b < 1000)%Q).
Proof.
  apply (findBestCDNNode_range [node_a; node_b] net_tie schedule_01).
  by vm_compute.
Defined.

(** ** The validity gate in terms of the two elapsed times *)

Lemma testLatency_DialOk d :
  testLatency (DialOk d) = (Seconds (Z.of_N d) * 1000)%Q.
Proof. done. Qed.

Lemma latency_bounds d :
  ((0 < testLatency (DialOk d))%Q ↔ (0 < d)%N) ∧
  ((testLatency (DialOk d) < 500)%Q ↔ (d < 500000000)%N).
Proof.
  unfold testLatency, Seconds, Qlt. simpl. split; lia.
Qed.

Lemma testDownloadSpeed_Fetched bytes e :
  testDownloadSpeed (Fetched bytes e) = 4500000000000 # (1024 * e).
Proof. by vm_compute. Qed.

Lemma speed_floor_Z z :
  (100 * (1024 * z) < 4500000000000 * 1 ↔ z <= 43945312)%Z.
Proof. lia. Qed.

Lemma speed_floor bytes e :
  (100 < testDownloadSpeed (Fetched bytes e))%Q ↔ (e <= 43945312)%positive.
Proof.
  rewrite testDownloadSpeed_Fetched. unfold Qlt. cbn [Qnum Qden].
  rewrite Pos2Z.inj_mul, (speed_floor_Z (Z.pos e)). reflexivity.
Qed.

(** X6. The value a worker sends passes [validateCDNNode] exactly when its
    dial succeeded in more than 0 and less than 500 000 000 ns and its
    download completed in at most 43 945 312 ns: the size being the constant
    4500 bytes, the throughput floor of 100KB/s is a ceiling on the time of
    the download, whatever was transferred. *)
Theorem valid_in_elapsed_times p n :
  validateCDNNode (worker p n) = true ↔
  ∃ d bytes e,
    dialed p = DialOk d ∧ fetched p = Fetched bytes e ∧
    (0 < d)%N ∧ (d < 500000000)%N ∧ (e <= 43945312)%positive.
Proof.
  rewrite validateCDNNode_spec. unfold worker. cbn [Latency].
  destruct (dialed p) as [|d] eqn:Hd.
  { simpl. split; [intros [? _]; lra | by intros (? & ? & ? & ? & _)]. }
  destruct (latency_bounds d) as [H0 H500].
  destruct (Qltb 0 (testLatency (DialOk d))) eqn:Hpos; cbn [Latency Speed].
  - apply Qltb_lt in Hpos. split.
    + intros (_ & Hlt & Hsp).
      destruct (fetched p) as [| |bytes e]; [simpl in Hsp; lra..|].
      exists d, bytes, e. rewrite <- H0, <- H500, <- speed_floor. done.
    + intros (d' & bytes & e & [= <-] & -> & ? & ? & ?).
      rewrite H500, speed_floor. done.
  - apply Qltb_ge in Hpos. split; [intros [? _]; lra|].
    intros (d' & bytes & e & [= <-] & _ & ?%H0 & _). lra.
Qed.

(** ** Every order of completion is possible *)

Section Orders.
Context (nodes : list CDNNode) (net : nat → probe).

(** The values of the workers [l], in that order. *)
Definition vals (l : list nat) : list CDNNode :=
  omap (λ i, probeAll nodes net !! i) l.

(** The schedule in which all the workers are spawned, then send in the
    order [order], then run [wg.Done], and the main goroutine receives after
    the close. *)
Definition schedule_of (order : list nat) : list event :=
  replicate (length nodes) EvSpawn ++ (EvSend <$> order) ++ (EvDone <$> order)
  ++ [EvClose] ++ replicate (length nodes) EvRecv ++ [EvReturn].

Definition spawned_state (j : nat) : state :=
  mkState j (list_to_set (seq 0 j)) ∅ j [] false initBest false [] [].

Definition sending_state (sofar rest : list nat) : state :=
  mkState (length nodes) (list_to_set rest) (list_to_set sofar) (length nodes)
    (vals sofar) false initBest false sofar [].

Definition done_state (pending order : list nat) : state :=
  mkState (length nodes) ∅ (list_to_set pending) (length pending)
    (vals order) false initBest false order [].

Definition receiving_state (order : list nat) (best : CDNNode)
    (got left : list CDNNode) (ret : bool) : state :=
  mkState (length nodes) ∅ ∅ 0 left true best ret order got.

Lemma vals_snoc l i n :
  probeAll nodes net !! i = Some n → vals (l ++ [i]) = vals l ++ [n].
Proof. intros Hi. unfold vals. rewrite omap_app. simpl. by rewrite Hi. Qed.

Lemma length_vals_le l : length (vals l) ≤ length l.
Proof.
  induction l as [|i l IH]; simpl; [done|].
  destruct (probeAll nodes net !! i); simpl; lia.
Qed.

Lemma length_vals l :
  (∀ i, i ∈ l → i < length nodes) → length (vals l) = length l.
Proof.
  induction l as [|i l IH]; intros Hlt; [done|].
  destruct (lookup_lt_is_Some_2 (probeAll nodes net) i) as [n Hn].
  { rewrite length_probeAll. apply Hlt. left. }
  change (vals (i :: l)) with (vals ([i] ++ l)).
  unfold vals in *. rewrite omap_app, length_app. simpl. rewrite Hn. simpl.
  f_equal. apply IH. intros j ?. apply Hlt. by right.
Qed.

Lemma length_NoDup_lt (l : list nat) n :
  NoDup l → (∀ i, i ∈ l → i < n) → length l ≤ n.
Proof.
  intros Hnd Hlt. rewrite <- (length_seq n 0).
  apply submseteq_length, NoDup_submseteq; [done|].
  intros i Hi. apply elem_of_seq. specialize (Hlt i Hi). lia.
Qed.

Lemma exec_spawns k : ∀ j,
  j + k ≤ length nodes →
  exec nodes net (replicate k EvSpawn) (spawned_state j)
  = Some (spawned_state (j + k)).
Proof.
  induction k as [|k IH]; intros j Hj.
  { by rewrite Nat.add_0_r. }
  cbn [replicate exec step spawned_state spawned running sending wg results
       closed bestNode returned sent received].
  rewrite decide_True by lia.
  replace (j + S k) with (S j + k) by lia. rewrite <- IH by lia.
  unfold spawned_state. do 2 f_equal.
  rewrite seq_S, list_to_set_app_L, list_to_set_singleton_L. simpl.
  by rewrite (comm_L (∪)).
Qed.

Lemma exec_sends rest : ∀ sofar,
  NoDup (sofar ++ rest) → (∀ i, i ∈ sofar ++ rest → i < length nodes) →
  exec nodes net (EvSend <$> rest) (sending_state sofar rest)
  = Some (sending_state (sofar ++ rest) []).
Proof.
  induction rest as [|i rest IH]; intros sofar Hnd Hlt.
  { by rewrite (right_id_L [] (++)). }
  assert (i < length nodes) as Hi.
  { apply Hlt. rewrite elem_of_app, elem_of_cons. auto. }
  destruct (lookup_lt_is_Some_2 (probeAll nodes net) i) as [n Hn].
  { by rewrite length_probeAll. }
  assert (length (vals sofar) < length nodes) as Hroom.
  { pose proof (length_vals_le sofar).
    pose proof (length_NoDup_lt _ _ Hnd Hlt) as Hle.
    rewrite length_app in Hle. simpl in Hle. lia. }
  apply NoDup_app in Hnd as Hparts. destruct Hparts as (_ & Hdis & Hrest).
  apply NoDup_cons in Hrest as [Hirest _].
  cbn [fmap list_fmap exec step sending_state spawned running sending wg
       results closed bestNode returned sent received].
  rewrite outcome_probeAll, Hn.
  rewrite decide_True by (rewrite elem_of_list_to_set; left).
  rewrite decide_True by done.
  rewrite (cons_middle i sofar rest), (assoc_L (++)).
  rewrite <- (IH (sofar ++ [i]));
    [|by rewrite <- (assoc_L (++)) | by rewrite <- (assoc_L (++))].
  unfold sending_state. rewrite (vals_snoc _ _ _ Hn). do 2 f_equal.
  - apply set_eq. intros j. rewrite elem_of_difference, !elem_of_list_to_set.
    rewrite elem_of_cons, elem_of_singleton. naive_solver.
  - rewrite list_to_set_app_L, list_to_set_singleton_L. by rewrite (comm_L (∪)).
Qed.

Lemma exec_dones order pending :
  NoDup pending →
  exec nodes net (EvDone <$> pending) (done_state pending order)
  = Some (done_state [] order).
Proof.
  induction pending as [|i pending IH]; intros Hnd; [done|].
  apply NoDup_cons in Hnd as [Hi Hnd].
  cbn [fmap list_fmap exec step done_state spawned running sending wg results
       closed bestNode returned sent received length].
  rewrite decide_True by (rewrite elem_of_list_to_set; left).
  rewrite <- (IH Hnd). unfold done_state. do 2 f_equal.
  apply set_eq. intros j. rewrite elem_of_difference, !elem_of_list_to_set.
  rewrite elem_of_cons, elem_of_singleton. naive_solver.
Qed.

Lemma exec_recvs order left : ∀ best got,
  exec nodes net (replicate (length left) EvRecv)
    (receiving_state order best got left false)
  = Some (receiving_state order (foldl pick best left) (got ++ left) [] false).
Proof.
  induction left as [|n left IH]; intros best got.
  { by rewrite (right_id_L [] (++)). }
  cbn [length replicate exec step receiving_state spawned running sending wg
       results closed bestNode returned sent received].
  rewrite decide_True by done.
  change (exec nodes net (replicate (length left) EvRecv)
            (receiving_state order (pick best n) (got ++ [n]) left false)
          = Some (receiving_state order (foldl pick best (n :: left))
                    (got ++ n :: left) [] false)).
  by rewrite IH, <- (assoc_L (++)).
Qed.

Lemma exec_schedule_of order :
  order ≡ₚ seq 0 (length nodes) →
  exec nodes net (schedule_of order) init
  = Some (receiving_state order (reduce (vals order)) (vals order) [] true).
Proof.
  intros Hperm.
  assert (NoDup order) as Hnd by (rewrite Hperm; apply NoDup_seq).
  assert (∀ i, i ∈ order → i < length nodes) as Hlt.
  { intros i. rewrite Hperm, elem_of_seq. lia. }
  assert (length order = length nodes) as Hlen.
  { by rewrite Hperm, length_seq. }
  assert (length (vals order) = length nodes) as Hvals.
  { by rewrite length_vals. }
  unfold schedule_of. rewrite exec_app.
  change init with (spawned_state 0). rewrite exec_spawns by done.
  assert (spawned_state (0 + length nodes) = sending_state [] order) as ->.
  { unfold spawned_state, sending_state. simpl. f_equal.
    apply set_eq. intros i. rewrite !elem_of_list_to_set, Hperm. done. }
  rewrite exec_app, exec_sends by done. simpl app.
  assert (sending_state order [] = done_state order order) as ->.
  { unfold sending_state, done_state. simpl. by rewrite Hlen. }
  rewrite exec_app, exec_dones by done.
  cbn [app exec step done_state spawned running sending wg results closed
       bestNode returned sent received length].
  rewrite decide_True by done. rewrite <- Hvals at 1.
  change (mkState (length nodes) ∅ (list_to_set []) 0 (vals order) true
            initBest false order [])
    with (receiving_state order initBest [] (vals order) false).
  rewrite exec_app, exec_recvs.
  cbn [exec step receiving_state spawned running sending wg results closed
       bestNode returned sent received app].
  by rewrite decide_True by done.
Qed.

End Orders.

(** X4. The order in which the concurrent probes complete is free: for
    every order of the workers there is a complete schedule of
    [findBestCDNNode] in which the values arrive in that order, and the node
    returned is the reduction of the values taken in that order. *)
Theorem every_completion_order_possible nodes net order :
  nodes ≠ [] → order ≡ₚ seq 0 (length nodes) →
  ∃ tr, arrivals nodes net tr = vals nodes net order ∧
        findBestCDNNode nodes net tr = Some (reduce (vals nodes net order)).
Proof.
  intros Hne Hperm. exists (schedule_of nodes order).
  unfold arrivals, findBestCDNNode.
  rewrite (exec_schedule_of nodes net order Hperm). by destruct nodes.
Qed.

Lemma every_completion_order_possible_witness :
  ∃ tr, arrivals [node_a; node_b] net_tie tr
        = vals [node_a; node_b] net_tie [1; 0] ∧
        findBestCDNNode [node_a; node_b] net_tie tr
        = Some (reduce (vals [node_a; node_b] net_tie [1; 0])).
Proof.
  apply (every_completion_order_possible [node_a; node_b] net_tie [1; 0]).
  - done.
  - apply Permutation_swap.
Defined.

End SmartCDNMore.

(** * The hosts updater: further properties *)

Module FastIPMore.
Import FastIP FastIPFacts.

(** ** [findFastestIP] *)

(** A node the first loop keeps: it did not time out and its name passes
    the region filter. *)
Definition accepted (node : Node) : bool :=
  negb (0 <? Timeout node)%Z && ContainsAny (NodeName node) cities.

(** The average times of the accepted nodes of [result] that have the
    address [ip], in the order of [result]. *)
Definition delaysOf (result : list Node) (ip : gostring) : list Q :=
  AvgTime <$> filter (λ n, accepted n = true ∧ IP n = ip) result.

Lemma collectNode_accepted ips n :
  collectNode ips n
  = if accepted n
    then <[IP n := default [] (ips !! IP n) ++ [AvgTime n]]> ips
    else ips.
Proof.
  unfold collectNode, accepted.
  by destruct (0 <? Timeout n)%Z, (ContainsAny (NodeName n) cities).
Qed.

Lemma delaysOf_cons n result ip :
  delaysOf (n :: result) ip
  = if decide (accepted n = true ∧ IP n = ip)
    then AvgTime n :: delaysOf result ip
    else delaysOf result ip.
Proof.
  unfold delaysOf. case_decide.
  - by rewrite filter_cons_True.
  - by rewrite filter_cons_False.
Qed.

Lemma collect_lookup result : ∀ ips ip,
  foldl collectNode ips result !! ip
  = match delaysOf result ip with
    | [] => ips !! ip
    | _ :: _ => Some (default [] (ips !! ip) ++ delaysOf result ip)
    end.
Proof.
  induction result as [|n result IH]; intros ips ip; [done|].
  cbn [foldl]. rewrite IH, collectNode_accepted, delaysOf_cons.
  destruct (decide (accepted n = true ∧ IP n = ip)) as [[Hacc <-]|Hno].
  - rewrite Hacc, lookup_insert_eq. cbn [default]. unfold id.
    destruct (delaysOf result (IP n)) as [|q l]; [done|].
    by rewrite <- (assoc_L (++)).
  - assert ((if accepted n
             then <[IP n := default [] (ips !! IP n) ++ [AvgTime n]]> ips
             else ips) !! ip = ips !! ip) as ->; [|done].
    destruct (accepted n) eqn:Hacc; [|done].
    apply lookup_insert_ne. intros Heq. by apply Hno.
Qed.

(** X7. After the first loop of [findFastestIP], the entry of an address
    holds exactly the average times of the nodes with that address that did
    not time out and whose name passes the region filter, in the order of
    the answer; an address without such a node has no entry. *)
Theorem collected_delays result ip :
  foldl collectNode ∅ result !! ip
  = match delaysOf result ip with
    | [] => None
    | _ :: _ => Some (delaysOf result ip)
    end.
Proof. rewrite collect_lookup, lookup_empty. by destruct (delaysOf result ip). Qed.




Section Selection.
Context (shuffle : ∀ A : Type, list A → list A) (ParseIP : gostring → bool).
Hypothesis shuffle_perm : ∀ A (l : list A), shuffle A l ≡ₚ l.




End Selection.


(** Two nodes in Beijing and Shanghai with the same address, one in Tokyo,
    one in Guangzhou that timed out. *)
Definition sample_result : list Node :=
  [mkNode (str "Tokyo") (str "20.27.177.113") 0 [] 20;
   mkNode [21271; 20140]%N (str "20.205.243.166") 0 [] 90;
   mkNode [24191; 24030]%N (str "140.82.112.3") 2 [] 5;
   mkNode [19978; 28023]%N (str "20.205.243.166") 0 [] 70].

Lemma sample_result_best :
  findFastestIP in_order (λ _, true) sample_result (str "github.com")
  = inl (str "20.205.243.166").
Proof. by vm_compute. Qed.









Lemma collect_filter result : ∀ ips,
  foldl collectNode ips (filter (λ n, accepted n = true) result)
  = foldl collectNode ips result.
Proof.
  induction result as [|n result IH]; intros ips; [done|].
  destruct (accepted n) eqn:Hacc.
  - rewrite filter_cons_True by done. cbn [foldl]. apply IH.
  - rewrite filter_cons_False by (by rewrite Hacc). cbn [foldl].
    by rewrite IH, (collectNode_accepted ips n), Hacc.
Qed.

(** X12. Nodes that timed out or whose name fails the region filter have
    no influence on [findFastestIP]: it returns on the whole answer what it
    returns on the answer restricted to the accepted nodes. *)
Theorem findFastestIP_ignores_rejected shuffle ParseIP result domain :
  findFastestIP shuffle ParseIP result domain
  = findFastestIP shuffle ParseIP
      (filter (λ n, accepted n = true) result) domain.
Proof. unfold findFastestIP. by rewrite collect_filter. Qed.

(** ** The map [main] builds *)

Lemma bestIPs_fold shuffle ParseIP lookup ds :
  ∀ (acc : gmap gostring gostring) d,
  foldl (λ ipMap domain,
           match getBestIP shuffle ParseIP lookup domain with
           | inl ip => <[domain := ip]> ipMap
           | inr _ => ipMap
           end) acc ds !! d
  = match getBestIP shuffle ParseIP lookup d with
    | inl ip => if decide (d ∈ ds) then Some ip else acc !! d
    | inr _ => acc !! d
    end.
Proof.
  induction ds as [|d0 ds IH]; intros acc d.
  { cbn [foldl]. destruct (getBestIP _ _ _ d); [|done].
    by rewrite decide_False by apply not_elem_of_nil. }
  cbn [foldl]. rewrite IH.
  destruct (getBestIP shuffle ParseIP lookup d) as [ip|e] eqn:Hd.
  - destruct (decide (d ∈ ds)) as [Hin|Hnin].
    + rewrite decide_True; [done | by right].
    + destruct (decide (d0 = d)) as [->|Hne].
      * rewrite Hd, lookup_insert_eq. rewrite decide_True; [done | left].
      * rewrite decide_False by (rewrite elem_of_cons; naive_solver).
        destruct (getBestIP shuffle ParseIP lookup d0); [|done].
        by rewrite lookup_insert_ne.
  - destruct (getBestIP shuffle ParseIP lookup d0) as [ip0|] eqn:Hd0; [|done].
    rewrite lookup_insert_ne; [done|]. intros ->. congruence.
Qed.

(** X13. The map [main] passes to [updateHosts] has an entry for a domain
    exactly when the domain is one of the four configured domains and
    [getBestIP] succeeded for it, and the entry is the address [getBestIP]
    returned: no other domain is ever written to the hosts file. *)
Theorem bestIPs_lookup shuffle ParseIP lookup d ip :
  bestIPs shuffle ParseIP lookup !! d = Some ip ↔
  d ∈ domains ∧ getBestIP shuffle ParseIP lookup d = inl ip.
Proof.
  unfold bestIPs. rewrite bestIPs_fold, lookup_empty.
  destruct (getBestIP shuffle ParseIP lookup d) as [ip'|e]; [|naive_solver].
  case_decide; naive_solver.
Qed.

(** ** [updateHosts]: what is written *)

Lemma addMissing_fold v entries :
  foldl addMissing v entries
  = mkVars
      (newLines v
       ++ ((λ e, e.2 ++ str " " ++ e.1)
             <$> filter (λ e, e.1 ∉ existingDomains v) entries))
      (existingDomains v)
      (stdout v
       ++ ((λ e, Added e.1 e.2)
             <$> filter (λ e, e.1 ∉ existingDomains v) entries)).
Proof.
  revert v. induction entries as [|[d ip] entries IH]; intros v.
  { destruct v. simpl. by rewrite !(right_id_L [] (++)). }
  cbn [foldl]. rewrite IH. unfold addMissing.
  destruct (decide (d ∈ existingDomains v)) as [Hd|Hd].
  - by rewrite filter_cons_False by (simpl; tauto).
  - rewrite filter_cons_True by done. cbn [newLines existingDomains stdout].
    cbn [fmap list_fmap fst snd]. by rewrite <- !(assoc_L (++)).
Qed.



(** What one line gives: the line trimmed and nothing else, or, for a host
    line with a mapped name, the line with the address of the first mapped
    name, that name marked, and one message. *)
Lemma processLine_shape ipMap text :
  processLine ipMap empty_vars text = mkVars [TrimSpace text] ∅ [] ∨
  ∃ address names d ip,
    HasPrefix (TrimSpace text) (str "#") = false ∧
    Fields (TrimSpace text) = address :: names ∧
    firstMapped ipMap names = Some (d, ip) ∧
    processLine ipMap empty_vars text
    = if decide (address ≠ ip)
      then mkVars [ip ++ str " " ++ Join names (str " ")] {[d]} [Updated d ip]
      else mkVars [TrimSpace text] {[d]} [Unchanged d].
Proof.
  destruct (HasPrefix (TrimSpace text) (str "#")) eqn:Hc.
  { left. rewrite processLine_kept by auto. done. }
  destruct (Fields (TrimSpace text)) as [|address names] eqn:Hf.
  { left. rewrite processLine_kept; [done|]. right. rewrite Hf. simpl. lia. }
  destruct (firstMapped ipMap names) as [[d ip]|] eqn:Hm.
  - right. exists address, names, d, ip. split_and!; [done..|].
    by apply processLine_mapped.
  - left. unfold processLine. rewrite Hc, Hf, Hm. by destruct names.
Qed.

Lemma scan_elem_of ipMap texts :
  (∀ l, l ∈ newLines (foldl (processLine ipMap) empty_vars texts) ↔
        ∃ text, text ∈ texts ∧ l ∈ newLines (processLine ipMap empty_vars text)) ∧
  (∀ m, m ∈ stdout (foldl (processLine ipMap) empty_vars texts) ↔
        ∃ text, text ∈ texts ∧ m ∈ stdout (processLine ipMap empty_vars text)).
Proof.
  induction texts as [|t texts [IHl IHm]] using rev_ind.
  { split; intros x; simpl;
      (split; [by intros ?%elem_of_nil | by intros (? & ?%elem_of_nil & _)]). }
  rewrite foldl_processLine_snoc. unfold merge. cbn [newLines stdout].
  split; intros x; rewrite elem_of_app; [rewrite IHl | rewrite IHm];
    setoid_rewrite elem_of_app; setoid_rewrite list_elem_of_singleton;
    naive_solver.
Qed.

(** X15. [updateHosts] changes at most the hosts file of the running
    system: the other files, [GOOS] and the permissions are left alone;
    when it returns an error the system is exactly as before; and nothing
    has been printed when the system is unsupported or the file cannot be
    opened. *)
Theorem updateHosts_frame shuffle ipMap sys sys' out err :
  updateHosts shuffle ipMap sys = (sys', out, err) →
  GOOS sys' = GOOS sys ∧ readonly sys' = readonly sys ∧
  (∀ p, hostsPathOf (GOOS sys) ≠ Some p → files sys' !! p = files sys !! p) ∧
  (err ≠ None → sys' = sys) ∧
  (err = Some ErrOpen ∨ err = Some (ErrUnsupportedOS (GOOS sys)) → out = []).
Proof.
  unfold updateHosts. destruct (hostsPathOf (GOOS sys)) as [path|].
  2:{ intros [= <- <- <-]. by split_and!. }
  destruct (files sys !! path) as [content|].
  2:{ intros [= <- <- <-]. by split_and!. }
  case_decide.
  - intros [= <- <- <-]. split_and!; [done..|]. by intros [?|?].
  - intros [= <- <- <-]. split_and!; [done | done | | done |by intros [?|?]].
    intros p Hp. simpl. apply lookup_insert_ne. congruence.
Qed.

Lemma updateHosts_frame_witness :
  let sys := mkSystem (str "linux") ∅ ∅ in
  GOOS sys = GOOS sys ∧ readonly sys = readonly sys ∧
  (∀ p, hostsPathOf (GOOS sys) ≠ Some p → files sys !! p = files sys !! p) ∧
  (Some ErrOpen ≠ None → sys = sys) ∧
  (Some ErrOpen = Some ErrOpen
   ∨ Some ErrOpen = Some (ErrUnsupportedOS (GOOS sys)) → [] = @nil message).
Proof.
  exact (updateHosts_frame in_order github_map (mkSystem (str "linux") ∅ ∅)
           (mkSystem (str "linux") ∅ ∅) [] (Some ErrOpen) eq_refl).
Defined.

Section Written.
Context (shuffle : ∀ A : Type, list A → list A).
Hypothesis shuffle_perm : ∀ A (l : list A), shuffle A l ≡ₚ l.

Lemma rewrite_newLines_elem_of ipMap content l :
  l ∈ newLines (rewrite shuffle ipMap content) ↔
  (∃ text, text ∈ ScanLines content ∧
           l ∈ newLines (processLine ipMap empty_vars text)) ∨
  ∃ d ip, ipMap !! d = Some ip ∧
          (d ∉ existingDomains
                 (foldl (processLine ipMap) empty_vars (ScanLines content))) ∧
          l = ip ++ str " " ++ d.
Proof.
  unfold rewrite. fold empty_vars. rewrite addMissing_fold. cbn [newLines].
  rewrite elem_of_app, (proj1 (scan_elem_of ipMap _)), list_elem_of_fmap.
  setoid_rewrite list_elem_of_filter. setoid_rewrite shuffle_perm.
  split; (intros [?|H]; [by left | right]).
  - destruct H as ([d ip] & -> & Hd & Hin%elem_of_map_to_list).
    by exists d, ip.
  - destruct H as (d & ip & Hip & Hd & ->). exists (d, ip).
    by rewrite elem_of_map_to_list.
Qed.

Lemma rewrite_stdout_elem_of ipMap content m :
  m ∈ stdout (rewrite shuffle ipMap content) ↔
  (∃ text, text ∈ ScanLines content ∧
           m ∈ stdout (processLine ipMap empty_vars text)) ∨
  ∃ d ip, ipMap !! d = Some ip ∧
          (d ∉ existingDomains
                 (foldl (processLine ipMap) empty_vars (ScanLines content))) ∧
          m = Added d ip.
Proof.
  unfold rewrite. fold empty_vars. rewrite addMissing_fold. cbn [stdout].
  rewrite elem_of_app, (proj2 (scan_elem_of ipMap _)), list_elem_of_fmap.
  setoid_rewrite list_elem_of_filter. setoid_rewrite shuffle_perm.
  split; (intros [?|H]; [by left | right]).
  - destruct H as ([d ip] & -> & Hd & Hin%elem_of_map_to_list).
    by exists d, ip.
  - destruct H as (d & ip & Hip & Hd & ->). exists (d, ip).
    by rewrite elem_of_map_to_list.
Qed.

End Written.

(** What a message says is true of the map: the domain is mapped, to the
    address the message gives if it gives one. *)
Definition truthful (ipMap : gmap gostring gostring) (m : message) : Prop :=
  match m with
  | Updated d ip | Added d ip => ipMap !! d = Some ip
  | Unchanged d => is_Some (ipMap !! d)
  end.

Definition subject (m : message) : gostring :=
  match m with Updated d _ | Unchanged d | Added d _ => d end.

(** A line marks [d]: it is a host line whose first mapped name is [d]. *)
Lemma processLine_marks ipMap text d :
  d ∈ existingDomains (processLine ipMap empty_vars text) →
  ∃ address names ip,
    Fields (TrimSpace text) = address :: names ∧
    firstMapped ipMap names = Some (d, ip) ∧
    processLine ipMap empty_vars text
    = if decide (address ≠ ip)
      then mkVars [ip ++ str " " ++ Join names (str " ")] {[d]} [Updated d ip]
      else mkVars [TrimSpace text] {[d]} [Unchanged d].
Proof.
  destruct (processLine_shape ipMap text)
    as [->|(address & names & d' & ip & _ & Hf & Hm & Heq)].
  { by intros ?%elem_of_empty. }
  rewrite Heq. intros Hd. exists address, names, ip.
  assert (d = d') as ->; [|done].
  revert Hd. case_decide; cbn [existingDomains]; by intros ?%elem_of_singleton.
Qed.

Section WrittenFacts.
Context (shuffle : ∀ A : Type, list A → list A).
Hypothesis shuffle_perm : ∀ A (l : list A), shuffle A l ≡ₚ l.

Lemma rewrite_clean ipMap content :
  wf_map ipMap → Forall clean (newLines (rewrite shuffle ipMap content)).
Proof.
  intros Hwf. apply Forall_forall. intros l.
  rewrite (rewrite_newLines_elem_of shuffle shuffle_perm).
  intros [(text & Hin & Hl)|(d & ip & Hip & _ & ->)].
  - pose proof (ScanLines_no_newline content) as Hnl.
    rewrite Forall_forall in Hnl.
    destruct (processLine_settled ipMap text Hwf (Hnl _ Hin))
      as (l' & _ & Heq & Hclean & _).
    rewrite Heq in Hl. by apply list_elem_of_singleton in Hl as ->.
  - by destruct (added_line_settled ipMap d ip Hwf Hip) as [? _].
Qed.

End WrittenFacts.

(** Every mapped domain ends on a line that carries its address. *)
Lemma rewrite_mapped_line shuffle ipMap content d ip :
  (∀ A (l : list A), shuffle A l ≡ₚ l) → wf_map ipMap →
  ipMap !! d = Some ip →
  ∃ l names,
    l ∈ newLines (rewrite shuffle ipMap content) ∧
    Fields l = ip :: names ∧ firstMapped ipMap names = Some (d, ip).
Proof.
  intros Hperm Hwf Hip. destruct (Hwf d ip Hip) as (Hd & Htok & Hhash).
  destruct (decide (d ∈ existingDomains
                         (foldl (processLine ipMap) empty_vars
                            (ScanLines content)))) as [Hin|Hnin].
  - apply existingDomains_scan in Hin as (text & Htext & Hmark).
    apply processLine_marks in Hmark as (address & names & ip' & Hf & Hm & Heq).
    destruct (firstMapped_Some _ _ _ _ Hm) as [Hip' Hdn].
    assert (ip' = ip) as -> by congruence.
    assert (Forall token names) as Hnames.
    { pose proof (Fields_tokens (TrimSpace text)) as Htoks.
      rewrite Hf in Htoks. by apply Forall_cons in Htoks as [_ ?]. }
    assert (names ≠ []) as Hnn by (intros ->; by apply elem_of_nil in Hdn).
    destruct (decide (address ≠ ip)) as [Hne|Heq'].
    + exists (ip ++ str " " ++ Join names (str " ")), names. split_and!; [|  |done].
      * apply (rewrite_newLines_elem_of shuffle Hperm). left.
        exists text. rewrite Heq. split; [done | left].
      * by apply host_line_facts.
    + exists (TrimSpace text), names. split_and!; [| |done].
      * apply (rewrite_newLines_elem_of shuffle Hperm). left.
        exists text. rewrite Heq. split; [done | left].
      * rewrite Hf. f_equal.
        by destruct (decide (address = ip)).
  - exists (ip ++ str " " ++ d), [d]. split_and!.
    + apply (rewrite_newLines_elem_of shuffle Hperm). right. by exists d, ip.
    + by apply (host_line_facts ip [d]); [| | |constructor].
    + simpl. by rewrite Hip.
Qed.

(** X16. After [updateHosts], every mapped domain has a line of its own
    kind in what is written: a line whose first field is the address the
    map gives the domain and on which the domain is the first mapped name
    (for maps of tokens whose addresses do not start with '#'). *)
Theorem mapped_domain_has_its_line shuffle ipMap content d ip :
  (∀ A (l : list A), shuffle A l ≡ₚ l) → wf_map ipMap →
  ipMap !! d = Some ip →
  ∃ l names,
    l ∈ newLines (rewrite shuffle ipMap content) ∧
    Fields l = ip :: names ∧ firstMapped ipMap names = Some (d, ip).
Proof. apply rewrite_mapped_line. Qed.

Lemma mapped_domain_has_its_line_witness :
  ∃ l names,
    l ∈ newLines (rewrite in_order github_map hosts_with_spaces) ∧
    Fields l = str "20.205.243.166" :: names ∧
    firstMapped github_map names
    = Some (str "github.com", str "20.205.243.166").
Proof.
  apply (mapped_domain_has_its_line in_order github_map hosts_with_spaces
           (str "github.com") (str "20.205.243.166")
           in_order_perm wf_github_map).
  by vm_compute.
Defined.



(** X18. What [updateHosts] prints is true of the map and leaves no mapped
    domain out: every message names a mapped domain, with the address the
    map gives it when the message gives an address, and every mapped domain
    is the subject of a message. *)
Theorem messages_truthful shuffle ipMap content :
  (∀ A (l : list A), shuffle A l ≡ₚ l) →
  (∀ m, m ∈ stdout (rewrite shuffle ipMap content) → truthful ipMap m) ∧
  (∀ d ip, ipMap !! d = Some ip →
           ∃ m, m ∈ stdout (rewrite shuffle ipMap content) ∧ subject m = d).
Proof.
  intros Hperm. split.
  - intros m. rewrite (rewrite_stdout_elem_of shuffle Hperm).
    intros [(text & _ & Hm)|(d & ip & Hip & _ & ->)]; [|done].
    destruct (processLine_shape ipMap text)
      as [Heq|(address & names & d & ip & _ & _ & Hfirst & Heq)];
      rewrite Heq in Hm.
    { by apply elem_of_nil in Hm. }
    apply firstMapped_Some in Hfirst as [Hip _].
    revert Hm. case_decide; cbn [stdout]; intros ->%list_elem_of_singleton;
      simpl; eauto.
  - intros d ip Hip.
    destruct (decide (d ∈ existingDomains
                           (foldl (processLine ipMap) empty_vars
                              (ScanLines content)))) as [Hin|Hnin].
    + apply existingDomains_scan in Hin as (text & Htext & Hmark).
      apply processLine_marks in Hmark as (address & names & ip' & _ & _ & Heq).
      destruct (decide (address ≠ ip')).
      * exists (Updated d ip'). split; [|done].
        apply (rewrite_stdout_elem_of shuffle Hperm). left.
        exists text. rewrite Heq. split; [done | left].
      * exists (Unchanged d). split; [|done].
        apply (rewrite_stdout_elem_of shuffle Hperm). left.
        exists text. rewrite Heq. split; [done | left].
    + exists (Added d ip). split; [|done].
      apply (rewrite_stdout_elem_of shuffle Hperm). right. by exists d, ip.
Qed.

Lemma messages_truthful_witness :
  (∀ m, m ∈ stdout (rewrite in_order github_map hosts_with_spaces) →
        truthful github_map m) ∧
  (∀ d ip, github_map !! d = Some ip →
           ∃ m, m ∈ stdout (rewrite in_order github_map hosts_with_spaces) ∧
                subject m = d).
Proof.
  exact (messages_truthful in_order github_map hosts_with_spaces in_order_perm).
Defined.



End FastIPMore.

(** * The scraping program

    The first program of [findfastip.go] reads the [copy-text] attribute of
    the page of the ping service and extracts the addresses it lists. *)

(** [strings.Split(s, sep)] for a separator of one code point, the only
    kind the code uses (a newline): the pieces of [s] between the
    occurrences of [sep], the last one included even when empty; [piece] is
    the piece being read. *)
Fixpoint splitFrom (piece : gostring) (sep : N) (s : gostring)
  : list gostring :=
  match s with
  | [] => [piece]
  | r :: s' =>
      if (r =? sep)%N then piece :: splitFrom [] sep s'
      else splitFrom (piece ++ [r]) sep s'
  end.

Definition Split (s : gostring) (sep : N) : list gostring :=
  splitFrom [] sep s.

Module Scrape.

(** The loop of [main] over [ipList], from index [i] on: the pairs
    [(i+1, ip)] printed; [host] receives the second components, in the same
    order. *)
Fixpoint extract (i : nat) (ipList : list gostring) : list (nat * gostring) :=
  match ipList with
  | [] => []
  | ip :: rest =>
      let ip := TrimSpace ip in
      if decide (ip ≠ []) then (i + 1, ip) :: extract (S i) rest
      else extract (S i) rest
  end.

(** [main]: [run] is the attribute value [chromedp.Run] delivers, [None]
    when it fails, and then [log.Fatal] ends the program; otherwise the
    numbered addresses printed, the final value of [host] and the count
    printed last. *)
Definition main (run : option gostring)
  : option (list (nat * gostring) * list gostring * nat) :=
  match run with
  | None => None
  | Some ips =>
      let ipList := Split ips 10 in
      let printed := extract 0 ipList in
      let host := printed.*2 in
      Some (printed, host, length host)
  end.

End Scrape.

(** ** [Split] *)

Lemma splitFrom_piece piece sep l rest :
  sep ∉ l →
  splitFrom piece sep (l ++ sep :: rest)
  = (piece ++ l) :: splitFrom [] sep rest.
Proof.
  revert piece. induction l as [|c l IH]; intros piece Hl.
  - rewrite (right_id_L [] (++)). simpl. by rewrite N.eqb_refl.
  - apply not_elem_of_cons in Hl as [Hc Hl].
    cbn [splitFrom app]. destruct (N.eqb_spec c sep) as [->|_]; [done|].
    rewrite IH by done. by rewrite <- (assoc_L (++)).
Qed.

Lemma splitFrom_last piece sep l :
  sep ∉ l → splitFrom piece sep l = [piece ++ l].
Proof.
  revert piece. induction l as [|c l IH]; intros piece Hl.
  - by rewrite (right_id_L [] (++)).
  - apply not_elem_of_cons in Hl as [Hc Hl].
    cbn [splitFrom]. destruct (N.eqb_spec c sep) as [->|_]; [done|].
    rewrite IH by done. by rewrite <- (assoc_L (++)).
Qed.

Lemma Split_Join ls sep :
  ls ≠ [] → Forall (λ l, sep ∉ l) ls → Split (Join ls [sep]) sep = ls.
Proof.
  unfold Split. intros Hne Hls. induction Hls as [|l ls Hl Hls IH]; [done|].
  destruct ls as [|l' ls].
  - simpl. by rewrite splitFrom_last.
  - rewrite Join_cons by done. cbn [app].
    rewrite splitFrom_piece by done. by rewrite IH.
Qed.



Module ScrapeFacts.
Import Scrape.


Lemma extract_clean i ipList :
  Forall (λ l, l ≠ [] ∧ trimmed l) ipList →
  extract i ipList = imap (λ k l, (i + k + 1, l)) ipList.
Proof.
  intros Hls. revert i. induction Hls as [|l ls [Hne Htr] _ IH]; intros i.
  { done. }
  cbn [extract imap]. rewrite (TrimSpace_id l Htr), decide_True by done.
  rewrite IH. replace (i + 0 + 1) with (i + 1) by lia. f_equal.
  apply imap_ext. intros k x _. simpl. f_equal. lia.
Qed.



(** X21. The extraction inverts the joining of addresses with newlines:
    from the lines of a non-empty list, none of them empty, with white
    space at an end or with a newline inside, joined by newlines, [main]
    gets back exactly the list, numbered from 1 without a gap. *)
Theorem host_of_joined ls :
  ls ≠ [] → Forall (λ l, l ≠ [] ∧ trimmed l ∧ 10%N ∉ l) ls →
  main (Some (Join ls [10%N]))
  = Some (imap (λ k l, (k + 1, l)) ls, ls, length ls).
Proof.
  intros Hne Hls. unfold main.
  rewrite Split_Join; [|done|by eapply Forall_impl; [exact Hls|]; intros ? (_&_&?)].
  rewrite extract_clean; [|by eapply Forall_impl; [exact Hls|]; intros ? (?&?&_)].
  assert ((imap (λ k l, (0 + k + 1, l)) ls).*2 = ls) as Hsnd.
  { rewrite fmap_imap. clear. generalize 0.
    induction ls as [|l ls IH]; intros n; [done|]. cbn [imap]. f_equal.
    by rewrite <- (IH (S n)) at 2. }
  by rewrite Hsnd.
Qed.

Lemma host_of_joined_witness :
  main (Some (Join [str "1.1.1.1"; str "2.2.2.2"] [10%N]))
  = Some ([(1, str "1.1.1.1"); (2, str "2.2.2.2")],
          [str "1.1.1.1"; str "2.2.2.2"], 2).
Proof.
  apply (host_of_joined [str "1.1.1.1"; str "2.2.2.2"]); [done|].
  assert (Forall token [str "1.1.1.1"; str "2.2.2.2"]) as Htoks
    by (repeat constructor; by vm_compute).
  eapply Forall_impl; [exact Htoks|]. intros l Hl.
  split_and!; [apply Hl | by apply token_trimmed | by apply token_no_newline].
Defined.

End ScrapeFacts.

(** * The hosts updater: [main] and [flushDNS] *)

Module HostsMain.
Import FastIP.

(** What the program prints, line by line. *)
Inductive report :=
  | Best (domain ip : gostring)       (* "域名: %-30s 最优IP: %s" *)
  | Failed (domain : gostring) (e : error)   (* "域名: %s 错误: %v" *)
  | Said (m : message)                (* a line printed by [updateHosts] *)
  | HostsFailed (e : error)           (* "更新hosts文件失败:" *)
  | Flushing                          (* "刷新DNS缓存..." *)
  | FlushUnsupported                  (* "不支持的操作系统，请手动刷新DNS" *)
  | FlushFailed (cmd : list gostring) (* "刷新DNS失败: %v" *)
  | FlushDone (cmd : list gostring)   (* "DNS缓存刷新完成" *)
  | Finished.                         (* "操作完成，GitHub访问已加速！" *)

(** The command [flushDNS] builds: [resolvectl] tells whether
    [exec.LookPath] finds the program of that name. *)
Definition flushCommand (goos : gostring) (resolvectl : bool)
  : option (list gostring) :=
  if decide (goos = str "windows") then Some [str "ipconfig"; str "/flushdns"]
  else if decide (goos = str "darwin")
  then Some [str "sudo"; str "killall"; str "-HUP"; str "mDNSResponder"]
  else if decide (goos = str "linux")
  then if resolvectl
       then Some [str "sudo"; str "resolvectl"; str "flush-caches"]
       else Some [str "sudo"; str "systemd-resolve"; str "--flush-caches"]
  else None.

(** [flushDNS]: [run cmd] tells whether [cmd.Run] succeeds. *)
Definition flushDNS (goos : gostring) (resolvectl : bool)
    (run : list gostring → bool) : list report :=
  Flushing ::
  match flushCommand goos resolvectl with
  | None => [FlushUnsupported]
  | Some cmd => [if run cmd then FlushDone cmd else FlushFailed cmd]
  end.

Section Main.
Variable shuffle : ∀ A : Type, list A → list A.
Variable ParseIP : gostring → bool.
Variable lookup : gostring → option PingResult.
Variable resolvectl : bool.
Variable run : list gostring → bool.

(** The body of the first loop of [main]. *)
Definition ask (st : gmap gostring gostring * list report)
    (domain : gostring) : gmap gostring gostring * list report :=
  match getBestIP shuffle ParseIP lookup domain with
  | inl ip => (<[domain := ip]> st.1, st.2 ++ [Best domain ip])
  | inr e => (st.1, st.2 ++ [Failed domain e])
  end.

(** [main]: the system it leaves and what it printed. *)
Definition main (sys : system) : system * list report :=
  let '(ipMap, out) := foldl ask (∅, []) domains in
  let '(sys', out) :=
    if decide (ipMap ≠ ∅) then
      let '(sys', msgs, err) := updateHosts shuffle ipMap sys in
      (sys', out ++ (Said <$> msgs)
                 ++ match err with Some e => [HostsFailed e] | None => [] end)
    else (sys, out) in
  (sys', out ++ flushDNS (GOOS sys) resolvectl run ++ [Finished]).

End Main.

End HostsMain.

Module HostsMainFacts.
Import FastIP FastIPFacts FastIPMore HostsMain.

Section Asked.
Context (shuffle : ∀ A : Type, list A → list A) (ParseIP : gostring → bool).
Context (lookup : gostring → option PingResult).

(** The first loop builds the map [bestIPs] and prints a line per domain. *)
Lemma foldl_ask ds st :
  (foldl (ask shuffle ParseIP lookup) st ds).1
  = foldl (λ ipMap domain,
             match getBestIP shuffle ParseIP lookup domain with
             | inl ip => <[domain := ip]> ipMap
             | inr _ => ipMap
             end) st.1 ds.
Proof.
  revert st. induction ds as [|d ds IH]; intros st; [done|].
  cbn [foldl]. rewrite IH. f_equal. unfold ask.
  by destruct (getBestIP shuffle ParseIP lookup d).
Qed.

Lemma asked_bestIPs :
  (foldl (ask shuffle ParseIP lookup) (∅, []) domains).1
  = bestIPs shuffle ParseIP lookup.
Proof. by rewrite foldl_ask. Qed.

End Asked.

(** X22. The two switches on [runtime.GOOS] agree: [flushDNS] has a command
    for exactly the systems for which [updateHosts] knows the path of the
    hosts file. *)
Theorem flush_supported_iff_hosts_supported goos resolvectl :
  is_Some (flushCommand goos resolvectl) ↔ is_Some (hostsPathOf goos).
Proof.
  unfold flushCommand, hostsPathOf.
  repeat case_decide; try destruct resolvectl;
    rewrite <- ?not_eq_None_Some; naive_solver.
Qed.

(** X23. When no domain gets an address, [main] does not call
    [updateHosts]: the system is left exactly as it was (the hosts file is
    not even rewritten with its lines trimmed), and nothing is printed
    about the hosts file. *)
Theorem main_without_address shuffle ParseIP lookup resolvectl run sys :
  (∀ d, d ∈ domains → ∃ e, getBestIP shuffle ParseIP lookup d = inr e) →
  ∃ out,
    main shuffle ParseIP lookup resolvectl run sys = (sys, out) ∧
    ∀ r, r ∈ out → (∀ m, r ≠ Said m) ∧ (∀ e, r ≠ HostsFailed e) ∧
                   (∀ d ip, r ≠ Best d ip).
Proof.
  intros Hfail. unfold main.
  pose proof (asked_bestIPs shuffle ParseIP lookup) as Hmap.
  assert (∀ r, r ∈ (foldl (ask shuffle ParseIP lookup) (∅, []) domains).2 →
               ∃ d e, r = Failed d e) as Hout.
  { assert (∀ r, r ∈ (∅ : gmap gostring gostring, @nil report).2 →
                 ∃ d e, r = Failed d e) as Hacc by (by intros r ?%elem_of_nil).
    revert Hacc Hfail. generalize (∅ : gmap gostring gostring, @nil report).
    generalize domains. clear.
    induction l as [|d ds IH]; intros st Hacc Hfail; [done|].
    cbn [foldl]. apply IH.
    - unfold ask. destruct (Hfail d ltac:(left)) as [e ->]. cbn [snd].
      intros r [?|Hr]%elem_of_app; [auto|].
      apply list_elem_of_singleton in Hr as ->. eauto.
    - intros d' ?. apply Hfail. by right. }
  destruct (foldl (ask shuffle ParseIP lookup) (∅, []) domains) as [ipMap out].
  cbn [fst snd] in *.
  assert (ipMap = ∅) as ->.
  { rewrite Hmap. apply map_empty. intros d.
    unfold bestIPs. rewrite bestIPs_fold.
    destruct (getBestIP shuffle ParseIP lookup d) as [ip|e] eqn:Hd; [|done].
    case_decide as Hin; [|done]. destruct (Hfail d Hin) as [e He]. congruence. }
  rewrite decide_False by (by intros H; apply H).
  eexists. split; [done|].
  intros r [Hr|Hr]%elem_of_app.
  - destruct (Hout r Hr) as (d & e & ->). done.
  - unfold flushDNS in Hr.
    destruct (flushCommand (GOOS sys) resolvectl) as [cmd|];
      [destruct (run cmd)|];
      repeat (apply elem_of_cons in Hr as [->|Hr]; [done|]);
      by apply elem_of_nil in Hr.
Qed.

Lemma main_without_address_witness :
  ∃ out,
    main in_order (λ _, true) (λ _, None) true (λ _, true)
      (linux hosts_with_spaces)
    = (linux hosts_with_spaces, out) ∧
    ∀ r, r ∈ out → (∀ m, r ≠ Said m) ∧ (∀ e, r ≠ HostsFailed e) ∧
                   (∀ d ip, r ≠ Best d ip).
Proof.
  apply (main_without_address in_order (λ _, true) (λ _, None) true (λ _, true)
           (linux hosts_with_spaces)).
  intros d _. by exists ErrLookup.
Defined.

(** X24. [main] end to end: when [updateHosts] reports no failure, every
    configured domain for which [getBestIP] returned an address is, in the
    hosts file the program leaves, a name on a line whose address is the
    one returned ([net.ParseIP] accepting only strings without white space
    that do not start with '#'). *)
Theorem main_postcondition
    shuffle ParseIP lookup resolvectl run sys sys' out path d ip :
  (∀ A (l : list A), shuffle A l ≡ₚ l) →
  (∀ s, ParseIP s = true → token s ∧ head s ≠ Some 35%N) →
  main shuffle ParseIP lookup resolvectl run sys = (sys', out) →
  hostsPathOf (GOOS sys) = Some path →
  Forall (λ r, ∀ e, r ≠ HostsFailed e) out →
  d ∈ domains → getBestIP shuffle ParseIP lookup d = inl ip →
  ∃ data l names,
    files sys' !! path = Some data ∧ l ∈ ScanLines data ∧
    Fields l = ip :: names ∧ d ∈ names.
Proof.
  intros Hperm Hparse Hmain Hpath Hok Hd Hbest.
  pose proof (bestIPs_wf shuffle ParseIP lookup Hparse) as Hwf.
  assert (bestIPs shuffle ParseIP lookup !! d = Some ip) as Hip.
  { unfold bestIPs. rewrite bestIPs_fold, Hbest. by rewrite decide_True. }
  unfold main in Hmain. pose proof (asked_bestIPs shuffle ParseIP lookup) as Hmap.
  destruct (foldl (ask shuffle ParseIP lookup) (∅, []) domains) as [ipMap out0].
  cbn [fst] in Hmap. subst ipMap.
  rewrite decide_True in Hmain by (intros Hempty; by rewrite Hempty in Hip).
  destruct (updateHosts shuffle (bestIPs shuffle ParseIP lookup) sys)
    as [[sys1 msgs] err] eqn:Hrun.
  injection Hmain as <- <-.
  destruct err as [e|].
  { rewrite Forall_forall in Hok. destruct (Hok (HostsFailed e)) with e; [|done].
    rewrite !elem_of_app. left. right. right. left. }
  apply updateHosts_success in Hrun as (p & content & Hp & Hc & _ & _ & ->).
  rewrite Hpath in Hp. injection Hp as <-.
  destruct (rewrite_mapped_line shuffle _ content d ip Hperm Hwf Hip)
    as (l & names & Hl & Hf & Hm).
  exists (writeLines
            (newLines (rewrite shuffle (bestIPs shuffle ParseIP lookup) content))),
    l, names.
  rewrite ScanLines_writeLines_clean by (by apply rewrite_clean).
  split_and!; [simpl; by rewrite lookup_insert_eq | done | done |].
  by apply firstMapped_Some in Hm as [_ ?].
Qed.

Definition only_github (d : gostring) : option PingResult :=
  if decide (d = str "github.com") then Some sample_result else None.

Definition dotted (s : gostring) : bool :=
  bool_decide (s = str "20.205.243.166").

Lemma main_postcondition_witness :
  ∃ data l names,
    files (main in_order dotted only_github true (λ _, true)
             (linux hosts_with_spaces)).1 !! hosts_path = Some data ∧
    l ∈ ScanLines data ∧
    Fields l = str "20.205.243.166" :: names ∧ str "github.com" ∈ names.
Proof.
  apply (main_postcondition in_order dotted only_github true (λ _, true)
           (linux hosts_with_spaces) _
           (main in_order dotted only_github true (λ _, true)
              (linux hosts_with_spaces)).2
           hosts_path (str "github.com") (str "20.205.243.166") in_order_perm).
  - intros s ->%bool_decide_eq_true. split; [split; [done|]|done].
    by repeat constructor.
  - apply surjective_pairing.
  - done.
  - vm_compute. repeat constructor; done.
  - left.
  - by vm_compute.
Defined.

End HostsMainFacts.

(** * The CDN optimizer: the resolver, the candidates, [main] and what it
      saves *)

Module SmartCDNMain.
Import SmartCDN.

(** [type RegionInfo struct] *)
Record RegionInfo := mkRegionInfo {
  Region : gostring;
  Country : gostring;
  City : gostring;
  GitHubEdge : gostring;
  ResolverIP : gostring
}.

(** The loop of [detectActionRegion] over the lines of [/etc/resolv.conf]:
    the value it leaves in [info.ResolverIP], empty when no line sets it. *)
Fixpoint nameserver (lines : list gostring) : gostring :=
  match lines with
  | [] => []
  | line :: rest =>
      if HasPrefix line (str "nameserver") then
        match Fields line with
        | _ :: ip :: _ => ip
        | _ => nameserver rest
        end
      else nameserver rest
  end.

(** [resolv] is the content of the file, [None] when it cannot be opened
    or read. *)
Definition resolverIP (resolv : option gostring) : gostring :=
  match resolv with
  | None => []
  | Some content => nameserver (Split content 10)
  end.

(** An answer record of the DNS response: an A record with the text of its
    address ([a.A.String()]), or a record of another type. *)
Inductive RR :=
  | A (ip : gostring)
  | OtherRR.

Definition nodeOf (region : RegionInfo) (ans : RR) : option CDNNode :=
  match ans with
  | A ip => Some (mkCDNNode ip (Region region) 0 0)
  | OtherRR => None
  end.

(** The [switch region.Region] of [getGitHubCDNNodes]. *)
Definition knownEdge (region : gostring) : list CDNNode :=
  if decide (region = str "ap-southeast-1")
  then [mkCDNNode (str "13.229.188.59") [] 0 0]
  else if decide (region = str "ap-northeast-1")
  then [mkCDNNode (str "13.114.40.48") [] 0 0]
  else if decide (region = str "eu-central-1")
  then [mkCDNNode (str "18.184.176.26") [] 0 0]
  else [].

(** The file system as [saveResults] sees it, under the working directory:
    the directories and the files by path.  [os.Mkdir] fails when the name
    exists, [os.WriteFile] when the directory of the path does not exist or
    the path is a directory; the code ignores both errors.  Permissions are
    not modelled. *)
Record fs := mkFs {
  dirs : gset gostring;
  files : gmap gostring gostring
}.

Definition Mkdir (name : gostring) (s : fs) : fs :=
  if decide (name ∈ dirs s ∨ is_Some (files s !! name)) then s
  else mkFs ({[name]} ∪ dirs s) (files s).

Definition WriteFile (dir name data : gostring) (s : fs) : fs :=
  let path := dir ++ str "/" ++ name in
  if decide (dir ∈ dirs s ∧ path ∉ dirs s)
  then mkFs (dirs s) (<[path := data]> (files s))
  else s.

Definition best_cdn : gostring := str "results" ++ str "/" ++ str "best_cdn.txt".
Definition cdn_report : gostring :=
  str "results" ++ str "/" ++ str "cdn_report.json".

(** How [main] ends: [log.Fatalf], or the return, with the file system it
    leaves. *)
Inductive outcome :=
  | Fatal
  | Done (s : fs).

Section Main.
(** [net.ParseIP(s) != nil] *)
Variable ParseIP : gostring → bool.
(** [client.Exchange]: from the address of the client-subnet option of the
    query, if it has one, to the answer section of the response, [None] on
    an error. *)
Variable exchange : option gostring → option (list RR).
(** [json.MarshalIndent] of the report, the time stamp included; it
    succeeds, the numbers of a node being finite. *)
Variable report : RegionInfo → CDNNode → gostring.
Variable net : nat → probe.

(** The address [getGitHubCDNNodes] puts in the client-subnet option. *)
Definition subnet (region : RegionInfo) : option gostring :=
  if decide (ResolverIP region ≠ [])
  then if ParseIP (ResolverIP region) then Some (ResolverIP region) else None
  else None.

Definition getGitHubCDNNodes (region : RegionInfo) : option (list CDNNode) :=
  match exchange (subnet region) with
  | None => None
  | Some answer => Some (omap (nodeOf region) answer ++ knownEdge (Region region))
  end.

Definition saveResults (region : RegionInfo) (node : CDNNode) (s : fs) : fs :=
  let s := Mkdir (str "results") s in
  let s := WriteFile (str "results") (str "best_cdn.txt") (IP node) s in
  WriteFile (str "results") (str "cdn_report.json") (report region node) s.

Definition saveFallbackResult (s : fs) : fs :=
  WriteFile (str "results") (str "best_cdn.txt") (str "geo-optimized") s.

(** [main], from the region [detectActionRegion] returned (it never
    returns an error), under the schedule [tr] of the goroutines of
    [findBestCDNNode]; [None] when [tr] is not a complete schedule. *)
Definition main (regionInfo : RegionInfo) (tr : list event) (s : fs)
  : option outcome :=
  match getGitHubCDNNodes regionInfo with
  | None => Some Fatal
  | Some nodes =>
      match findBestCDNNode nodes net tr with
      | None => None
      | Some bestNode =>
          if validateCDNNode bestNode
          then Some (Done (saveResults regionInfo bestNode s))
          else Some (Done (saveFallbackResult s))
      end
  end.

End Main.

End SmartCDNMain.

Module SmartCDNMainFacts.
Import SmartCDN SmartCDNFacts SmartCDNMain.

(** A line that sets the resolver. *)
Definition sets (line ip : gostring) : Prop :=
  HasPrefix line (str "nameserver") = true ∧
  ∃ first rest, Fields line = first :: ip :: rest.

Lemma sets_token line ip : sets line ip → token ip.
Proof.
  intros (_ & first & rest & Hf).
  pose proof (Fields_tokens line) as Htoks. rewrite Hf in Htoks.
  by apply Forall_cons in Htoks as [_ [? _]%Forall_cons].
Qed.

Lemma nameserver_cons line rest :
  nameserver (line :: rest)
  = if HasPrefix line (str "nameserver") then
      match Fields line with
      | _ :: ip :: _ => ip
      | _ => nameserver rest
      end
    else nameserver rest.
Proof. done. Qed.

Lemma nameserver_sets line rest ip :
  sets line ip → nameserver (line :: rest) = ip.
Proof.
  intros (Hp & first & rest' & Hf). by rewrite nameserver_cons, Hp, Hf.
Qed.

Lemma nameserver_skip line rest :
  (∀ ip, ¬ sets line ip) → nameserver (line :: rest) = nameserver rest.
Proof.
  intros Hno. rewrite nameserver_cons.
  destruct (HasPrefix line (str "nameserver")) eqn:Hp; [|done].
  destruct (Fields line) as [|first [|ip rest']] eqn:Hf; [done..|].
  destruct (Hno ip). split; [done|]. by exists first, rest'.
Qed.

Lemma sets_dec line : (∃ ip, sets line ip) ∨ ∀ ip, ¬ sets line ip.
Proof.
  destruct (HasPrefix line (str "nameserver")) eqn:Hp.
  2:{ right. intros ip [? _]. congruence. }
  destruct (Fields line) as [|first [|ip rest']] eqn:Hf.
  - right. intros ip (_ & ? & ? & ?). congruence.
  - right. intros ip (_ & ? & ? & ?). congruence.
  - left. exists ip. split; [done|]. by exists first, rest'.
Qed.

(** X25. The resolver [detectActionRegion] records is the second field of
    the first line of [/etc/resolv.conf] that starts with "nameserver" and
    has two fields or more, later lines being ignored; it is empty exactly
    when there is no such line, and otherwise has no white space. *)
Theorem resolver_is_first_nameserver lines :
  (nameserver lines = [] ∧ ∀ line ip, line ∈ lines → ¬ sets line ip) ∨
  ∃ i line,
    lines !! i = Some line ∧ sets line (nameserver lines) ∧
    token (nameserver lines) ∧
    ∀ j earlier ip, j < i → lines !! j = Some earlier → ¬ sets earlier ip.
Proof.
  induction lines as [|line rest IH].
  { left. split; [done|]. by intros line ip ?%elem_of_nil. }
  destruct (sets_dec line) as [[ip Hip]|Hno].
  - right. exists 0, line. rewrite (nameserver_sets _ _ _ Hip).
    split_and!; [done | done | by eapply sets_token | intros; lia].
  - rewrite (nameserver_skip _ _ Hno).
    destruct IH as [[Hnil Hnone]|(i & line' & Hi & Hsets & Htok & Hfirst)].
    + left. split; [done|].
      intros line' ip [->|?]%elem_of_cons; [apply Hno | by apply Hnone].
    + right. exists (S i), line'. split_and!; [done..|].
      intros [|j] earlier ip Hj Hlook.
      * injection Hlook as <-. apply Hno.
      * apply (Hfirst j); [lia | done].
Qed.

(** The node [findBestCDNNode] returns passes [validateCDNNode] only if it
    is the value a worker computed for a candidate. *)
Lemma findBestCDNNode_valid nodes net tr b :
  findBestCDNNode nodes net tr = Some b → validateCDNNode b = true →
  ∃ i n, nodes !! i = Some n ∧ b = worker (net i) n.
Proof.
  intros Hb Hvalid.
  destruct (findBestCDNNode_reduce nodes net tr b Hb)
    as [[_ ->]|(_ & Hperm & ->)]; [done|].
  destruct (reduce_origin (arrivals nodes net tr)) as [Heq|[Hin _]].
  { by rewrite Heq in Hvalid. }
  apply elem_of_probeAll. by rewrite <- Hperm.
Qed.

Lemma worker_IP p n : IP (worker p n) = IP n.
Proof. unfold worker. by case_match. Qed.

Lemma elem_of_getGitHubCDNNodes ParseIP exchange region nodes n :
  getGitHubCDNNodes ParseIP exchange region = Some nodes → n ∈ nodes →
  ∃ answer,
    exchange (subnet ParseIP region) = Some answer ∧
    (A (IP n) ∈ answer ∨ n ∈ knownEdge (Region region)).
Proof.
  unfold getGitHubCDNNodes.
  destruct (exchange _) as [answer|]; [|done]. intros [= <-] Hn.
  exists answer. split; [done|].
  apply elem_of_app in Hn as [Hn|Hn]; [left | by right].
  apply list_elem_of_omap in Hn as ([ip|] & Hin & Heq); [|done].
  by injection Heq as <-.
Qed.

Lemma WriteFile_dirs dir name data s : dirs (WriteFile dir name data s) = dirs s.
Proof. unfold WriteFile. cbv zeta. by case_decide. Qed.

Lemma WriteFile_lookup dir name data s p :
  files (WriteFile dir name data s) !! p
  = if decide ((dir ∈ dirs s ∧ dir ++ str "/" ++ name ∉ dirs s) ∧
               p = dir ++ str "/" ++ name)
    then Some data else files s !! p.
Proof.
  unfold WriteFile. cbv zeta.
  destruct (decide (dir ∈ dirs s ∧ dir ++ str "/" ++ name ∉ dirs s))
    as [Hd|Hd]; cbn [files].
  - destruct (decide (p = dir ++ str "/" ++ name)) as [->|Hp].
    + rewrite lookup_insert_eq. by rewrite decide_True.
    + rewrite lookup_insert_ne by done. rewrite decide_False; [done|]. by intros [_ ?].
  - rewrite decide_False; [done|]. by intros [? _].
Qed.

(** X26. What [main] leaves in [results/best_cdn.txt] is never an address
    it did not validate: the file holds what it held before, or the text
    "geo-optimized", or the address of a candidate whose probe passes
    [validateCDNNode] and which is an A record of the DNS answer or the
    known edge of the region.  The default node 140.82.113.3 and the
    initial record are never saved. *)
Theorem saved_address_is_validated
    ParseIP exchange report net region tr s s' data :
  main ParseIP exchange report net region tr s = Some (Done s') →
  files s' !! best_cdn = Some data →
  files s !! best_cdn = Some data ∨ data = str "geo-optimized" ∨
  ∃ answer i n,
    exchange (subnet ParseIP region) = Some answer ∧
    (omap (nodeOf region) answer ++ knownEdge (Region region)) !! i = Some n ∧
    data = IP n ∧ validateCDNNode (worker (net i) n) = true ∧
    (A data ∈ answer ∨ n ∈ knownEdge (Region region)).
Proof.
  unfold main.
  destruct (getGitHubCDNNodes ParseIP exchange region) as [nodes|] eqn:Hnodes;
    [|done].
  destruct (findBestCDNNode nodes net tr) as [b|] eqn:Hb; [|done].
  destruct (validateCDNNode b) eqn:Hvalid; intros [= <-].
  - unfold saveResults. rewrite !WriteFile_lookup.
    rewrite decide_False by (intros [_ ?]; done).
    case_decide as Hbest.
    2:{ unfold Mkdir. case_decide; by left. }
    intros [= <-]. right. right.
    destruct (findBestCDNNode_valid _ _ _ _ Hb Hvalid) as (i & n & Hi & ->).
    destruct (elem_of_getGitHubCDNNodes _ _ _ _ n Hnodes) as (answer & Hans & Hn).
    { by eapply list_elem_of_lookup_2. }
    exists answer, i, n. rewrite worker_IP.
    unfold getGitHubCDNNodes in Hnodes. rewrite Hans in Hnodes.
    injection Hnodes as <-. by split_and!.
  - unfold saveFallbackResult. rewrite WriteFile_lookup.
    case_decide; [|by left]. intros [= <-]. by right; left.
Qed.

Definition two_answers (ecs : option gostring) : option (list RR) :=
  Some [A (str "1.2.3.4"); OtherRR; A (str "5.6.7.8")].

Definition nowhere : RegionInfo := mkRegionInfo [] [] [] [] [].

Definition no_report (region : RegionInfo) (node : CDNNode) : gostring := [].

Definition empty_fs : fs := mkFs ∅ ∅.

Lemma saved_address_is_validated_witness :
  let data := str "1.2.3.4" in
  files empty_fs !! best_cdn = Some data ∨ data = str "geo-optimized" ∨
  ∃ answer i n,
    two_answers (subnet (λ _, true) nowhere) = Some answer ∧
    (omap (nodeOf nowhere) answer ++ knownEdge (Region nowhere)) !! i = Some n ∧
    data = IP n ∧ validateCDNNode (worker (net_tie i) n) = true ∧
    (A data ∈ answer ∨ n ∈ knownEdge (Region nowhere)).
Proof.
  apply (saved_address_is_validated (λ _, true) two_answers no_report net_tie
           nowhere schedule_01 empty_fs
           (saveResults no_report nowhere
              (worker (net_tie 0) node_a) empty_fs) (str "1.2.3.4"));
    by vm_compute.
Defined.

Lemma WriteFile_no_dir dir name data s :
  dir ∉ dirs s → WriteFile dir name data s = s.
Proof. intros Hd. unfold WriteFile. cbv zeta. rewrite decide_False; [done|]. by intros [? _]. Qed.

(** X27. [saveFallbackResult] does not create the directory it writes in:
    when no candidate passes [validateCDNNode] (in particular when there is
    no candidate) and the working directory has no directory [results],
    [main] returns without having written anything. *)
Theorem fallback_needs_the_directory
    ParseIP exchange report net region tr s s' nodes :
  getGitHubCDNNodes ParseIP exchange region = Some nodes →
  (∀ i n, nodes !! i = Some n → validateCDNNode (worker (net i) n) = false) →
  str "results" ∉ dirs s →
  main ParseIP exchange report net region tr s = Some (Done s') →
  s' = s.
Proof.
  intros Hnodes Hinvalid Hdir. unfold main. rewrite Hnodes.
  destruct (findBestCDNNode nodes net tr) as [b|] eqn:Hb; [|done].
  destruct (validateCDNNode b) eqn:Hvalid.
  { destruct (findBestCDNNode_valid _ _ _ _ Hb Hvalid) as (i & n & Hi & ->).
    rewrite (Hinvalid i n Hi) in Hvalid. done. }
  intros [= <-]. by apply WriteFile_no_dir.
Qed.

Definition no_answer (ecs : option gostring) : option (list RR) := Some [].

Lemma fallback_needs_the_directory_witness :
  main (λ _, true) no_answer no_report net_tie nowhere [] empty_fs
  = Some (Done empty_fs) ∧ empty_fs = empty_fs.
Proof.
  split; [by vm_compute|].
  apply (fallback_needs_the_directory (λ _, true) no_answer no_report net_tie
           nowhere [] empty_fs empty_fs []).
  - done.
  - by intros i n ?.
  - by vm_compute.
  - by vm_compute.
Defined.

End SmartCDNMainFacts.
